(** * csim.c: a set-associative LRU cache simulator

    Shallow embedding of [src/csim.c] and the properties of its cache model.

    Conventions of the embedding.
    - [long] and [unsigned long] are 64 bits wide, [int] is 32 bits wide
      (LP64).  A value of these types is a [Z].
    - Arithmetic on [unsigned long] wraps modulo [2^64] ([to_ulong]).
    - What C leaves undefined has no result: a signed overflow, a shift by a
      negative count or by 64 and more, a read or a write outside an array.
      The functions return [option]; [None] is such an execution.
    - [malloc] always succeeds; [free] followed by a fresh [newLine] at the
      same array slot is the replacement of the slot's value.
    - A pointer to a [Set] of the cache is its index in [cache->sets]. *)

From Stdlib Require Import ZArith Lia Ascii.
From stdpp Require Import base option list numbers.

Local Open Scope Z_scope.

(** ** Machine integers *)

Definition INT_MAX : Z := 2147483647.
Definition LONG_MAX : Z := 9223372036854775807.
Definition LONG_MIN : Z := -9223372036854775808.
Definition ULONG_MOD : Z := 18446744073709551616.

(** Conversion to [unsigned long]. *)
Definition to_ulong (x : Z) : Z := x mod ULONG_MOD.

(** Conversion of an [unsigned long] to [long] (two's complement). *)
Definition to_long (x : Z) : Z := (x + 9223372036854775808) mod ULONG_MOD - 9223372036854775808.

(** [x + y] on [long]. *)
Definition add_long (x y : Z) : option Z :=
  if bool_decide (LONG_MIN <= x + y <= LONG_MAX) then Some (x + y) else None.

(** [x << n] on [long]. *)
Definition shl_long (x n : Z) : option Z :=
  if bool_decide (0 <= n < 64 /\ 0 <= x /\ x * 2 ^ n <= LONG_MAX)
  then Some (Z.shiftl x n) else None.

(** [x >> n] on [unsigned long]. *)
Definition shr_ulong (x n : Z) : option Z :=
  if bool_decide (0 <= n < 64) then Some (Z.shiftr x n) else None.

(** [x << n] on [unsigned long]. *)
Definition shl_ulong (x n : Z) : option Z :=
  if bool_decide (0 <= n < 64) then Some (to_ulong (Z.shiftl x n)) else None.

(** ** Arrays and loops *)

(** [a[i]] read. *)
Definition get {A} (a : list A) (i : Z) : option A :=
  if bool_decide (0 <= i) then a !! Z.to_nat i else None.

(** [a[i] = x], after [a[i]] was found to exist. *)
Definition put {A} (a : list A) (i : Z) (x : A) : list A := <[Z.to_nat i := x]> a.

(** [k] iterations of a loop body from index [i] on. *)
Fixpoint loop_from {S} (k : nat) (i : Z) (body : Z → S → option S) (st : S) : option S :=
  match k with
  | O => Some st
  | S k' => st' ← body i st; loop_from k' (i + 1) body st'
  end.

(** [for (int i = 0; i < n; i++) body], where [body] changes neither [i]
    nor [n]: the last [i++] overflows when [n] is above [INT_MAX]. *)
Definition for_int {S} (n : Z) (body : Z → S → option S) (st : S) : option S :=
  if bool_decide (n <= INT_MAX) then loop_from (Z.to_nat n) 0 body st else None.

(** ** The structures *)

Record Line := newLine {
  dirtyBit : Z;
  tagBit : Z;
  lruCounter : Z
}.

Record Set_ := mkSet {
  num : Z;
  capacity : Z;
  lines : list Line
}.

Record Cache := mkCache {
  s : Z;
  E : Z;
  opCounter : Z;
  sets : list Set_
}.

(** [csim_stats_t] is declared in [cachelab.h]; [main] prints its five
    fields with [%lx], they are [unsigned long]. *)
Record csim_stats_t := mkStats {
  hits : Z;
  misses : Z;
  evictions : Z;
  dirty_bytes : Z;
  dirty_evictions : Z
}.

Definition results0 : csim_stats_t := mkStats 0 0 0 0 0.

Definition incr_hits (r : csim_stats_t) : csim_stats_t :=
  mkStats (to_ulong (hits r + 1)) (misses r) (evictions r) (dirty_bytes r) (dirty_evictions r).
Definition incr_misses (r : csim_stats_t) : csim_stats_t :=
  mkStats (hits r) (to_ulong (misses r + 1)) (evictions r) (dirty_bytes r) (dirty_evictions r).
Definition incr_evictions (r : csim_stats_t) : csim_stats_t :=
  mkStats (hits r) (misses r) (to_ulong (evictions r + 1)) (dirty_bytes r) (dirty_evictions r).
Definition add_dirty_bytes (x : Z) (r : csim_stats_t) : csim_stats_t :=
  mkStats (hits r) (misses r) (evictions r) (to_ulong (dirty_bytes r + x)) (dirty_evictions r).
Definition sub_dirty_bytes (x : Z) (r : csim_stats_t) : csim_stats_t :=
  mkStats (hits r) (misses r) (evictions r) (to_ulong (dirty_bytes r - x)) (dirty_evictions r).
Definition add_dirty_evictions (x : Z) (r : csim_stats_t) : csim_stats_t :=
  mkStats (hits r) (misses r) (evictions r) (dirty_bytes r) (to_ulong (dirty_evictions r + x)).

(** ** Construction *)

Definition newSet (cap : Z) : option Set_ :=
  ls ← for_int cap (λ _ ls, Some (ls ++ [newLine 0 0 0])) [];
  Some (mkSet 0 cap ls).

Definition createCache (sb Ev : Z) : option Cache :=
  n ← shl_long 1 sb;
  ss ← for_int n (λ _ ss, st ← newSet Ev; Some (ss ++ [st])) [];
  Some (mkCache n Ev 0 ss).

Definition setEmpty (st : Set_) : bool := bool_decide (num st = 0).

(** ** indexLRU *)

Definition indexLRU_body (ls : list Line) (i : Z) (acc : Z * Z) : option (Z * Z) :=
  let '(min, index) := acc in
  l ← get ls i;
  if bool_decide (min < 0) then Some (lruCounter l, i)
  else if bool_decide (lruCounter l < min) then Some (lruCounter l, i)
  else Some (min, index).

Definition indexLRU (st : Set_) : option Z :=
  snd <$> for_int (num st) (indexLRU_body (lines st)) (-1, -1).

(** ** addToSet *)

(** [results->dirty_bytes += (1L << b)] under [if (dirtyBit > 0)]. *)
Definition count_dirty (d b : Z) (r : csim_stats_t) : option csim_stats_t :=
  if bool_decide (d > 0) then blk ← shl_long 1 b; Some (add_dirty_bytes blk r)
  else Some r.

(** The body of the two loops that look for a hit. *)
Definition hit_body (opc d t b : Z) (i : Z) (acc : csim_stats_t * list Line * bool)
  : option (csim_stats_t * list Line * bool) :=
  let '(r, ls, isIn) := acc in
  l ← get ls i;
  if bool_decide (t = tagBit l) then
    if bool_decide (dirtyBit l = 0) then
      if bool_decide (d > 0) then
        blk ← shl_long 1 b;
        Some (add_dirty_bytes blk r, put ls i (newLine d (tagBit l) opc), true)
      else Some (r, put ls i (newLine (dirtyBit l) (tagBit l) opc), true)
    else Some (r, put ls i (newLine (dirtyBit l) (tagBit l) opc), true)
  else Some (r, ls, isIn).

(** The three branches of [addToSet], on the set it is given. *)
Definition addToSet_set (r : csim_stats_t) (opc : Z) (st : Set_) (d t b : Z)
  : option (csim_stats_t * Set_) :=
  if setEmpty st then
    _ ← get (lines st) 0;
    n ← add_long (num st) 1;
    r' ← count_dirty d b (incr_misses r);
    Some (r', mkSet n (capacity st) (put (lines st) 0 (newLine d t opc)))
  else if bool_decide (num st ≠ capacity st) then
    '(r1, ls, isIn) ← for_int (num st) (hit_body opc d t b) (r, lines st, false);
    if isIn : bool then Some (incr_hits r1, mkSet (num st) (capacity st) ls)
    else
      _ ← get ls (num st);
      r' ← count_dirty d b (incr_misses r1);
      n ← add_long (num st) 1;
      Some (r', mkSet n (capacity st) (put ls (num st) (newLine d t opc)))
  else
    '(r1, ls, isIn) ← for_int (num st) (hit_body opc d t b) (r, lines st, false);
    if isIn : bool then Some (incr_hits r1, mkSet (num st) (capacity st) ls)
    else
      let r2 := incr_evictions (incr_misses r1) in
      evictIndex ← indexLRU (mkSet (num st) (capacity st) ls);
      victim ← get ls evictIndex;
      r3 ← (if bool_decide (dirtyBit victim > 0)
            then blk ← shl_long 1 b;
                 Some (add_dirty_evictions blk (sub_dirty_bytes blk r2))
            else Some r2);
      r' ← count_dirty d b r3;
      Some (r', mkSet (num st) (capacity st) (put ls evictIndex (newLine d t opc))).

(** [addToSet(results, cache, cache->sets[set], dirtyBit, tagBit, b)]. *)
Definition addToSet (r : csim_stats_t) (c : Cache) (set : Z) (d t b : Z)
  : option (csim_stats_t * Cache) :=
  st ← get (sets c) set;
  '(r', st') ← addToSet_set r (opCounter c) st d t b;
  opc ← add_long (opCounter c) 1;
  Some (r', mkCache (s c) (E c) opc (put (sets c) set st')).

(** ** The loop of main *)

(** One record of the trace, as [fscanf] reads it. *)
Record record := mkRecord {
  op : ascii;
  addr : Z;
  size : Z
}.

(** The set index and the tag of an address. *)
Definition decompose (sb b : Z) (address : Z) : option (Z * Z) :=
  set ← (if bool_decide (sb = 0) then Some 0
         else x ← shr_ulong address b;
              y ← shl_ulong x (64 - sb);
              shr_ulong y (64 - sb));
  tag ← shr_ulong address (b + sb);
  Some (set, tag).

(** The body of the [while] loop. *)
Definition step (sb b : Z) (st : csim_stats_t * Cache) (rc : record)
  : option (csim_stats_t * Cache) :=
  '(set, tag) ← decompose sb b (addr rc);
  if Ascii.eqb (op rc) "S"
  then addToSet st.1 st.2 set 1 (to_long tag) b
  else addToSet st.1 st.2 set 0 (to_long tag) b.

Fixpoint run_trace (sb b : Z) (st : csim_stats_t * Cache) (tr : list record)
  : option (csim_stats_t * Cache) :=
  match tr with
  | [] => Some st
  | rc :: tr' => st' ← step sb b st rc; run_trace sb b st' tr'
  end.

(** [main] up to the end of the trace, on the parsed options and trace. *)
Definition simulate (sb Ev b : Z) (tr : list record) : option (csim_stats_t * Cache) :=
  c ← createCache sb Ev;
  run_trace sb b (results0, c) tr.

(** A load and a store of one byte, as trace records. *)
Definition L (a : Z) : record := mkRecord "L" a 1.
Definition St (a : Z) : record := mkRecord "S" a 1.

(** ** The loop that looks for a hit *)

(** What a hit leaves in the line, and in the statistics. *)
Definition hit_line (opc d : Z) (l : Line) : Line :=
  newLine (if bool_decide (dirtyBit l = 0 ∧ d > 0) then d else dirtyBit l) (tagBit l) opc.

Definition hit_results (d b : Z) (l : Line) (r : csim_stats_t) : csim_stats_t :=
  if bool_decide (dirtyBit l = 0 ∧ d > 0) then add_dirty_bytes (2 ^ b) r else r.

(** No line below [n] holds the tag [t]. *)
Definition absent (t : Z) (n : Z) (ls : list Line) : Prop :=
  ∀ j l, 0 <= j < n → get ls j = Some l → tagBit l ≠ t.

(** The lines below [n] hold different tags. *)
Definition tags_unique (n : Z) (ls : list Line) : Prop :=
  ∀ i j li lj, 0 <= i < n → 0 <= j < n →
    get ls i = Some li → get ls j = Some lj → tagBit li = tagBit lj → i = j.

(** ** indexLRU: the first line with the smallest counter *)

(** [v] is the lowest index, below [n], of a line with the smallest
    [lruCounter] of the lines below [n]. *)
Definition first_least (ls : list Line) (n v : Z) : Prop :=
  0 <= v < n ∧
  ∃ lv, get ls v = Some lv ∧
    (∀ j l, 0 <= j < n → get ls j = Some l → lruCounter lv <= lruCounter l) ∧
    (∀ j l, 0 <= j < v → get ls j = Some l → lruCounter lv < lruCounter l).

(** ** The three cases of an access, on one set *)

(** The shape of a set that [newSet] builds and [addToSet] keeps. *)
Record wf_set (st : Set_) : Prop := {
  wf_num : 0 <= num st <= capacity st;
  wf_cap : 0 < capacity st <= INT_MAX;
  wf_len : Z.of_nat (length (lines st)) = capacity st
}.

(** The count of the bytes of a new line. *)
Definition new_dirty (d b : Z) (r : csim_stats_t) : csim_stats_t :=
  if bool_decide (d > 0) then add_dirty_bytes (2 ^ b) r else r.

(** The count of the bytes of an evicted line. *)
Definition evict_dirty (b : Z) (victim : Line) (r : csim_stats_t) : csim_stats_t :=
  if bool_decide (dirtyBit victim > 0)
  then add_dirty_evictions (2 ^ b) (sub_dirty_bytes (2 ^ b) r) else r.

(** ** An access, on the cache *)

(** The cache after an access that left [st'] in the set [k]. *)
Definition after_access (c : Cache) (k : Z) (st' : Set_) : Cache :=
  mkCache (s c) (E c) (opCounter c + 1) (put (sets c) k st').

(** ** Sums *)

Definition sumZ {A} (f : A → Z) (l : list A) : Z := foldr (λ x acc, f x + acc) 0 l.

(** ** The dirty bytes that the cache holds *)

(** The lines in use: the first [num] lines of the set. *)
Definition resident (st : Set_) : list Line := take (Z.to_nat (num st)) (lines st).

Definition line_bytes (blk : Z) (l : Line) : Z :=
  if bool_decide (dirtyBit l > 0) then blk else 0.

(** The sum of the block size over the dirty lines in use, of a set and of
    the cache. *)
Definition dirty_sum_set (blk : Z) (st : Set_) : Z := sumZ (line_bytes blk) (resident st).
Definition dirty_sum (blk : Z) (c : Cache) : Z := sumZ (dirty_sum_set blk) (sets c).

(** ** The new set and the new cache *)

Definition line0 : Line := newLine 0 0 0.

(** The set that [newSet] returns. *)
Definition set0 (cap : Z) : Set_ := mkSet 0 cap (replicate (Z.to_nat cap) line0).

(** The cache that [createCache] returns. *)
Definition cache0 (sb Ev : Z) : Cache :=
  mkCache (2 ^ sb) Ev 0 (replicate (Z.to_nat (2 ^ sb)) (set0 Ev)).

(** ** The outcome of an access, by cases *)

Inductive access_case (r : csim_stats_t) (opc : Z) (st : Set_) (d t b : Z)
  : option (csim_stats_t * Set_) → Prop :=
| case_hit i l :
    0 <= i < num st → get (lines st) i = Some l → tagBit l = t →
    access_case r opc st d t b
      (Some (incr_hits (hit_results d b l r),
             mkSet (num st) (capacity st) (put (lines st) i (hit_line opc d l))))
| case_insert :
    absent t (num st) (lines st) → num st < capacity st →
    access_case r opc st d t b
      (Some (new_dirty d b (incr_misses r),
             mkSet (num st + 1) (capacity st) (put (lines st) (num st) (newLine d t opc))))
| case_evict v victim :
    absent t (num st) (lines st) → num st = capacity st →
    indexLRU st = Some v → first_least (lines st) (num st) v →
    get (lines st) v = Some victim →
    access_case r opc st d t b
      (Some (new_dirty d b (evict_dirty b victim (incr_evictions (incr_misses r))),
             mkSet (num st) (capacity st) (put (lines st) v (newLine d t opc)))).

(** ** The invariant of the simulation *)

Record set_inv (Ev opc : Z) (st : Set_) : Prop := {
  si_wf : wf_set st;
  si_cap : capacity st = Ev;
  si_tags : tags_unique (num st) (lines st);
  si_stamps : ∀ j l, 0 <= j < num st → get (lines st) j = Some l →
                0 <= lruCounter l < opc
}.

(** [n] accesses were made. *)
Record Inv (sb Ev b n : Z) (r : csim_stats_t) (c : Cache) : Prop := {
  inv_s : s c = 2 ^ sb;
  inv_E : E c = Ev;
  inv_len : Z.of_nat (length (sets c)) = 2 ^ sb;
  inv_opc : opCounter c = n;
  inv_n : 0 <= n <= LONG_MAX;
  inv_sets : ∀ k st, get (sets c) k = Some st → set_inv Ev n st;
  inv_hits : 0 <= hits r;
  inv_misses : 0 <= misses r;
  inv_total : hits r + misses r = n;
  inv_evictions : 0 <= evictions r <= misses r;
  inv_dirty : dirty_bytes r = to_ulong (dirty_sum (2 ^ b) c)
}.

(** ** The trace *)

(** The dirty bit that [main] passes for a record. *)
Definition dirty_of (rc : record) : Z := if Ascii.eqb (op rc) "S" then 1 else 0.

(** The options of [main] for which the code runs into nothing undefined:
    [1L << s] sets counted by an [int], [E] lines counted by an [int],
    blocks of [1L << b] bytes, and shifts of the address by less than 64. *)
Record valid_config (sb Ev b : Z) : Prop := {
  vc_s : 0 <= sb <= 30;
  vc_E : 0 < Ev <= INT_MAX;
  vc_b : 0 <= b <= 62;
  vc_bs : b + sb < 64
}.

(** ** Evictions *)

(** A line in use of [st] holds another tag in [st']: its block was evicted. *)
Definition evicts (st st' : Set_) : Prop :=
  ∃ v l l', 0 <= v < num st ∧ get (lines st) v = Some l ∧
    get (lines st') v = Some l' ∧ tagBit l' ≠ tagBit l.

(** ** Records that are the same access *)

(** Two records are both stores or both not, at addresses of one block. *)
Definition same_access (b : Z) (rc1 rc2 : record) : Prop :=
  (op rc1 = "S"%char ↔ op rc2 = "S"%char) ∧
  Z.shiftr (addr rc1) b = Z.shiftr (addr rc2) b.

(** ** More invariants of the simulation *)

(** The lines below [n] carry different counters. *)
Definition stamps_unique (n : Z) (ls : list Line) : Prop :=
  ∀ i j li lj, 0 <= i < n → 0 <= j < n →
    get ls i = Some li → get ls j = Some lj → lruCounter li = lruCounter lj → i = j.

(** The number of lines in use, over all sets. *)
Definition lines_in_use (c : Cache) : Z := sumZ num (sets c).

(** The set [k] has a line in use with the tag [t]. *)
Definition holds (c : Cache) (k t : Z) : Prop :=
  ∃ st i l, get (sets c) k = Some st ∧ 0 <= i < num st ∧
    get (lines st) i = Some l ∧ tagBit l = t.

(** ** The end of main *)

(** The loops of [main] that free the lines, the arrays of lines and the
    sets, as the reads of [cache->sets[i]] and of [lines[j]] that they make. *)
Definition free_cache (c : Cache) : option unit :=
  for_int (s c) (λ i _,
    st ← get (sets c) i;
    for_int (capacity st) (λ j _, _ ← get (lines st) j; Some ()) ()) ().

(** ** The evictions of dirty lines along a trace *)

(** The set has a line in use with the tag [t]. *)
Definition tag_in_use (t : Z) (st : Set_) : bool :=
  existsb (λ l, bool_decide (tagBit l = t)) (resident st).

(** The access of [rc] on the cache [c] evicts a dirty line: its set is
    full and not empty, has no line in use with its tag, and the line that
    [indexLRU] names is dirty. *)
Definition evicts_dirty (sb b : Z) (c : Cache) (rc : record) : bool :=
  match decompose sb b (addr rc) with
  | Some (k, tg) =>
      match get (sets c) k with
      | Some st =>
          if bool_decide (num st = capacity st) && negb (setEmpty st)
             && negb (tag_in_use (to_long tg) st)
          then match indexLRU st with
               | Some v =>
                   match get (lines st) v with
                   | Some victim => bool_decide (dirtyBit victim > 0)
                   | None => false
                   end
               | None => false
               end
          else false
      | None => false
      end
  | None => false
  end.

(** The number of the accesses of [tr], made from the state [st] on, that
    evict a dirty line. *)
Fixpoint dirty_victims (sb b : Z) (st : csim_stats_t * Cache) (tr : list record) : Z :=
  match tr with
  | [] => 0
  | rc :: tr' =>
      (if evicts_dirty sb b st.2 rc then 1 else 0)
      + match step sb b st rc with
        | Some st' => dirty_victims sb b st' tr'
        | None => 0
        end
  end.

(** The same number for a run of [main]. *)
Definition dirty_victims_of (sb Ev b : Z) (tr : list record) : Z :=
  match createCache sb Ev with
  | Some c => dirty_victims sb b (results0, c) tr
  | None => 0
  end.

(** * Lemmas *)

(** ** On machine integers *)

Lemma to_ulong_range x : 0 <= to_ulong x < ULONG_MOD.
Proof. unfold to_ulong, ULONG_MOD. apply Z.mod_pos_bound. lia. Qed.

Lemma to_ulong_small x : 0 <= x < ULONG_MOD → to_ulong x = x.
Proof. unfold to_ulong, ULONG_MOD. intros H. apply Z.mod_small. lia. Qed.

Lemma to_ulong_add_l x y : to_ulong (to_ulong x + y) = to_ulong (x + y).
Proof. unfold to_ulong, ULONG_MOD. apply Zplus_mod_idemp_l. Qed.

Lemma to_ulong_sub_l x y : to_ulong (to_ulong x - y) = to_ulong (x - y).
Proof. unfold to_ulong, ULONG_MOD. apply Zminus_mod_idemp_l. Qed.

Lemma to_ulong_sub_add x y z : to_ulong (to_ulong x - y + z) = to_ulong (x - y + z).
Proof.
  replace (to_ulong x - y + z) with (to_ulong x + (z - y)) by lia.
  rewrite to_ulong_add_l. f_equal. lia.
Qed.

Lemma shl_long_1 b : 0 <= b <= 62 → shl_long 1 b = Some (2 ^ b).
Proof.
  intros Hb. unfold shl_long. rewrite bool_decide_eq_true_2.
  - by rewrite Z.shiftl_1_l.
  - split; [lia|]. split; [lia|].
    assert (2 ^ b <= 2 ^ 62) by (apply Z.pow_le_mono_r; lia).
    unfold LONG_MAX. lia.
Qed.

Lemma add_long_1 x : LONG_MIN <= x + 1 <= LONG_MAX → add_long x 1 = Some (x + 1).
Proof. intros H. unfold add_long. by rewrite bool_decide_eq_true_2. Qed.

(** The double shift of [main] keeps the low [sb] bits. *)
Lemma shl_shr_low_bits x sb :
  0 < sb < 64 →
  Z.shiftr (to_ulong (Z.shiftl x (64 - sb))) (64 - sb) = Z.land x (Z.ones sb).
Proof.
  intros Hs. apply Z.bits_inj'. intros n Hn.
  rewrite Z.shiftr_spec by lia. rewrite Z.land_spec.
  unfold to_ulong. change ULONG_MOD with (2 ^ 64).
  destruct (decide (n < sb)) as [Hlt|Hge].
  - rewrite Z.mod_pow2_bits_low by lia.
    rewrite Z.shiftl_spec by lia.
    rewrite Z.ones_spec_low by lia.
    rewrite andb_true_r. f_equal. lia.
  - rewrite Z.mod_pow2_bits_high by lia.
    rewrite Z.ones_spec_high by lia.
    by rewrite andb_false_r.
Qed.

(** ** On arrays and loops *)

Lemma loop_from_app {S} k1 k2 i (body : Z → S → option S) st :
  loop_from (k1 + k2) i body st
  = st' ← loop_from k1 i body st; loop_from k2 (i + Z.of_nat k1) body st'.
Proof.
  revert i st. induction k1 as [|k1 IH]; intros i st; simpl.
  - by rewrite Z.add_0_r.
  - destruct (body i st) as [st1|]; simpl; [|done].
    rewrite IH. do 2 f_equal. lia.
Qed.

Lemma loop_from_snoc {S} k i (body : Z → S → option S) st :
  loop_from (Datatypes.S k) i body st
  = st' ← loop_from k i body st; body (i + Z.of_nat k) st'.
Proof.
  replace (Datatypes.S k) with (k + 1)%nat by lia.
  rewrite loop_from_app. destruct (loop_from k i body st) as [st1|]; simpl; [|done].
  by destruct (body (i + Z.of_nat k) st1).
Qed.

Lemma get_Some {A} (a : list A) i x :
  get a i = Some x ↔ 0 <= i ∧ a !! Z.to_nat i = Some x.
Proof.
  unfold get. case_bool_decide; [tauto|].
  split; [done|]. intros [? _]. lia.
Qed.

Lemma get_lt {A} (a : list A) i :
  0 <= i < Z.of_nat (length a) → ∃ x, get a i = Some x.
Proof.
  intros Hi. destruct (lookup_lt_is_Some_2 a (Z.to_nat i)) as [x Hx]; [lia|].
  exists x. apply get_Some. split; [lia|done].
Qed.

Lemma get_Some_lt {A} (a : list A) i x :
  get a i = Some x → 0 <= i < Z.of_nat (length a).
Proof.
  intros [H0 H]%get_Some. apply lookup_lt_Some in H. lia.
Qed.

Lemma get_put_eq {A} (a : list A) i x :
  0 <= i < Z.of_nat (length a) → get (put a i x) i = Some x.
Proof.
  intros Hi. apply get_Some. split; [lia|].
  unfold put. apply list_lookup_insert_eq. lia.
Qed.

Lemma get_put_ne {A} (a : list A) i j x :
  0 <= i → i ≠ j → get (put a i x) j = get a j.
Proof.
  intros Hi Hne. unfold get, put. case_bool_decide; [|done].
  apply list_lookup_insert_ne. lia.
Qed.

Lemma length_put {A} (a : list A) i x : length (put a i x) = length a.
Proof. apply length_insert. Qed.

(** ** On the loop that looks for a hit *)

Lemma hit_body_miss opc d t b i r ls isIn l :
  get ls i = Some l → tagBit l ≠ t →
  hit_body opc d t b i (r, ls, isIn) = Some (r, ls, isIn).
Proof.
  intros Hl Ht. unfold hit_body. rewrite Hl. simpl.
  rewrite bool_decide_eq_false_2; [done|congruence].
Qed.

Lemma hit_body_hit opc d t b i r ls isIn l :
  0 <= b <= 62 → get ls i = Some l → tagBit l = t →
  hit_body opc d t b i (r, ls, isIn)
  = Some (hit_results d b l r, put ls i (hit_line opc d l), true).
Proof.
  intros Hb Hl Ht. unfold hit_body, hit_results, hit_line. rewrite Hl. simpl.
  rewrite bool_decide_eq_true_2 by done.
  repeat case_bool_decide; try lia; try tauto; try done.
  by rewrite shl_long_1.
Qed.

Lemma hit_loop_miss opc d t b k : ∀ i r ls isIn,
  (∀ j, i <= j < i + Z.of_nat k → ∃ l, get ls j = Some l ∧ tagBit l ≠ t) →
  loop_from k i (hit_body opc d t b) (r, ls, isIn) = Some (r, ls, isIn).
Proof.
  induction k as [|k IH]; intros i r ls isIn H; [done|].
  cbn [loop_from]. destruct (H i) as (l & Hl & Ht); [lia|].
  rewrite (hit_body_miss _ _ _ _ _ _ _ _ l) by done. simpl.
  apply IH. intros j Hj. apply H. lia.
Qed.

Lemma hit_loop_hit opc d t b n i0 l r ls :
  0 <= b <= 62 → 0 <= i0 < n →
  get ls i0 = Some l → tagBit l = t →
  (∀ j, 0 <= j < n → j ≠ i0 → ∃ l', get ls j = Some l' ∧ tagBit l' ≠ t) →
  loop_from (Z.to_nat n) 0 (hit_body opc d t b) (r, ls, false)
  = Some (hit_results d b l r, put ls i0 (hit_line opc d l), true).
Proof.
  intros Hb Hi Hl Ht Hothers.
  replace (Z.to_nat n) with (Z.to_nat i0 + Datatypes.S (Z.to_nat (n - i0 - 1)))%nat by lia.
  rewrite loop_from_app.
  rewrite hit_loop_miss by (intros j Hj; apply Hothers; lia).
  cbn [loop_from mbind option_bind]. replace (0 + Z.of_nat (Z.to_nat i0)) with i0 by lia.
  rewrite (hit_body_hit _ _ _ _ _ _ _ _ l) by done. simpl.
  apply hit_loop_miss. intros j Hj.
  rewrite get_put_ne by lia. apply Hothers; lia.
Qed.

(** A tag is held by one of the lines below [n], or by none. *)
Lemma tag_held_or_absent t n (ls : list Line) :
  (∃ i l, 0 <= i < n ∧ get ls i = Some l ∧ tagBit l = t) ∨ absent t n ls.
Proof.
  destruct (decide (0 <= n)) as [Hn|Hn];
    [|right; intros j l Hj; lia].
  rewrite <- (Z2Nat.id n Hn). generalize (Z.to_nat n) as k. clear n Hn.
  induction k as [|k [IH|IH]].
  - right. intros j l Hj. lia.
  - left. destruct IH as (i & l & Hi & Hl & Ht). exists i, l. split; [lia|done].
  - destruct (get ls (Z.of_nat k)) as [l|] eqn:Hl.
    + destruct (decide (tagBit l = t)) as [Ht|Ht].
      * left. exists (Z.of_nat k), l. split; [lia|done].
      * right. intros j l' Hj Hl'.
        destruct (decide (j = Z.of_nat k)) as [->|Hne]; [congruence|].
        apply (IH j); [lia|done].
    + right. intros j l' Hj Hl'.
      destruct (decide (j = Z.of_nat k)) as [->|Hne]; [congruence|].
      apply (IH j); [lia|done].
Qed.

(** ** On indexLRU: the first line with the smallest counter *)

Lemma indexLRU_loop ls k :
  Z.of_nat (Datatypes.S k) <= Z.of_nat (length ls) →
  (∀ j l, 0 <= j < Z.of_nat (Datatypes.S k) → get ls j = Some l → 0 <= lruCounter l) →
  ∃ v lv, loop_from (Datatypes.S k) 0 (indexLRU_body ls) (-1, -1) = Some (lruCounter lv, v)
    ∧ get ls v = Some lv ∧ first_least ls (Z.of_nat (Datatypes.S k)) v.
Proof.
  induction k as [|k IH]; intros Hlen Hpos.
  - destruct (get_lt ls 0) as [l0 Hl0]; [lia|].
    exists 0, l0. cbn [loop_from]. unfold indexLRU_body. rewrite Hl0. simpl.
    split; [done|]. split; [done|]. split; [lia|].
    exists l0. split; [done|]. split.
    + intros j l Hj Hl. assert (j = 0) as -> by lia. assert (l = l0) as -> by congruence. lia.
    + intros j l Hj. lia.
  - destruct IH as (v & lv & Hloop & Hv & Hfl); [lia| |].
    { intros j l Hj. apply Hpos. lia. }
    rewrite loop_from_snoc, Hloop. cbn [mbind option_bind].
    destruct (get_lt ls (Z.of_nat (Datatypes.S k))) as [lk Hlk]; [lia|].
    replace (0 + Z.of_nat (Datatypes.S k)) with (Z.of_nat (Datatypes.S k)) by lia.
    unfold indexLRU_body. rewrite Hlk. cbn [mbind option_bind].
    assert (0 <= lruCounter lv) as Hlv0.
    { apply (Hpos v); [|done]. destruct Hfl as [? _]. lia. }
    rewrite bool_decide_eq_false_2 by lia.
    destruct Hfl as (Hvr & lv' & Hv' & Hmin & Hfirst).
    assert (lv' = lv) as -> by congruence.
    case_bool_decide as Hcmp.
    + exists (Z.of_nat (Datatypes.S k)), lk. split; [done|]. split; [done|].
      split; [lia|]. exists lk. split; [done|]. split.
      * intros j l Hj Hl.
        destruct (decide (j = Z.of_nat (Datatypes.S k))) as [->|Hne].
        -- assert (l = lk) as -> by congruence. lia.
        -- assert (lruCounter lv <= lruCounter l) by (apply (Hmin j); [lia|done]). lia.
      * intros j l Hj Hl.
        assert (lruCounter lv <= lruCounter l) by (apply (Hmin j); [lia|done]). lia.
    + exists v, lv. split; [done|]. split; [done|].
      split; [lia|]. exists lv. split; [done|]. split.
      * intros j l Hj Hl.
        destruct (decide (j = Z.of_nat (Datatypes.S k))) as [->|Hne].
        -- assert (l = lk) as -> by congruence. lia.
        -- apply (Hmin j); [lia|done].
      * done.
Qed.

Lemma indexLRU_first_least st :
  0 < num st <= INT_MAX →
  num st <= Z.of_nat (length (lines st)) →
  (∀ j l, 0 <= j < num st → get (lines st) j = Some l → 0 <= lruCounter l) →
  ∃ v, indexLRU st = Some v ∧ first_least (lines st) (num st) v.
Proof.
  intros Hn Hlen Hpos. unfold indexLRU, for_int.
  rewrite bool_decide_eq_true_2 by lia.
  destruct (Z.to_nat (num st)) as [|k] eqn:Hk; [lia|].
  assert (num st = Z.of_nat (Datatypes.S k)) as Hnk by lia.
  rewrite Hnk in *.
  destruct (indexLRU_loop (lines st) k) as (v & lv & -> & Hv & Hfl); [lia|done|].
  exists v. done.
Qed.

(** ** On the three cases of an access, on one set *)

Lemma count_dirty_new d b r : 0 <= b <= 62 → count_dirty d b r = Some (new_dirty d b r).
Proof.
  intros Hb. unfold count_dirty, new_dirty. case_bool_decide; [|done].
  by rewrite shl_long_1.
Qed.

Lemma addToSet_set_hit r opc st d t b i l :
  wf_set st → tags_unique (num st) (lines st) → 0 <= b <= 62 →
  0 <= i < num st → get (lines st) i = Some l → tagBit l = t →
  addToSet_set r opc st d t b
  = Some (incr_hits (hit_results d b l r),
          mkSet (num st) (capacity st) (put (lines st) i (hit_line opc d l))).
Proof.
  intros [Hnum Hcap Hlen] Huniq Hb Hi Hl Ht.
  assert (for_int (num st) (hit_body opc d t b) (r, lines st, false)
          = Some (hit_results d b l r, put (lines st) i (hit_line opc d l), true)) as Hloop.
  { unfold for_int. rewrite bool_decide_eq_true_2 by lia.
    apply hit_loop_hit; try done.
    intros j Hj Hne. destruct (get_lt (lines st) j) as [l' Hl']; [lia|].
    exists l'. split; [done|]. intros Ht'. apply Hne.
    apply (Huniq j i l' l); try done. congruence. }
  unfold addToSet_set, setEmpty.
  rewrite bool_decide_eq_false_2 by lia.
  case_bool_decide; rewrite Hloop; done.
Qed.

Lemma hit_loop_absent r opc st d t b :
  wf_set st → absent t (num st) (lines st) →
  for_int (num st) (hit_body opc d t b) (r, lines st, false) = Some (r, lines st, false).
Proof.
  intros [Hnum Hcap Hlen] Habs. unfold for_int.
  rewrite bool_decide_eq_true_2 by lia.
  apply hit_loop_miss. intros j Hj.
  destruct (get_lt (lines st) j) as [l' Hl']; [lia|].
  exists l'. split; [done|]. apply (Habs j); [lia|done].
Qed.

Lemma addToSet_set_insert r opc st d t b :
  wf_set st → 0 <= b <= 62 →
  num st < capacity st → absent t (num st) (lines st) →
  addToSet_set r opc st d t b
  = Some (new_dirty d b (incr_misses r),
          mkSet (num st + 1) (capacity st) (put (lines st) (num st) (newLine d t opc))).
Proof.
  intros Hwf Hb Hfree Habs. pose proof Hwf as [Hnum Hcap Hlen].
  unfold addToSet_set, setEmpty. case_bool_decide as H0.
  - destruct (get_lt (lines st) 0) as [l0 Hl0]; [lia|].
    rewrite Hl0, H0. cbn [mbind option_bind].
    rewrite add_long_1 by (unfold LONG_MIN, LONG_MAX; lia).
    rewrite count_dirty_new by done. done.
  - rewrite bool_decide_eq_true_2 by lia.
    rewrite hit_loop_absent by done. cbn [mbind option_bind].
    destruct (get_lt (lines st) (num st)) as [ln Hln]; [lia|].
    rewrite Hln. cbn [mbind option_bind].
    rewrite count_dirty_new by done. cbn [mbind option_bind].
    rewrite add_long_1 by (unfold LONG_MIN, LONG_MAX, INT_MAX in *; lia). done.
Qed.

Lemma addToSet_set_evict r opc st d t b :
  wf_set st → 0 <= b <= 62 →
  num st = capacity st → absent t (num st) (lines st) →
  (∀ j l, 0 <= j < num st → get (lines st) j = Some l → 0 <= lruCounter l) →
  ∃ v victim,
    indexLRU st = Some v ∧ first_least (lines st) (num st) v ∧
    get (lines st) v = Some victim ∧
    addToSet_set r opc st d t b
    = Some (new_dirty d b (evict_dirty b victim (incr_evictions (incr_misses r))),
            mkSet (num st) (capacity st) (put (lines st) v (newLine d t opc))).
Proof.
  intros Hwf Hb Hfull Habs Hpos. pose proof Hwf as [Hnum Hcap Hlen].
  destruct (indexLRU_first_least st) as (v & Hv & Hfl); [lia|lia|done|].
  pose proof Hfl as (Hvr & victim & Hvic & _).
  exists v, victim. split; [done|]. split; [done|]. split; [done|].
  unfold addToSet_set, setEmpty.
  rewrite bool_decide_eq_false_2 by lia.
  rewrite bool_decide_eq_false_2 by (intros H; apply H; done).
  rewrite hit_loop_absent by done. cbn [mbind option_bind].
  replace (mkSet (num st) (capacity st) (lines st)) with st by (by destruct st).
  rewrite Hv. cbn [mbind option_bind]. rewrite Hvic. cbn [mbind option_bind].
  unfold evict_dirty. case_bool_decide.
  - rewrite shl_long_1 by done. cbn [mbind option_bind].
    rewrite count_dirty_new by done. done.
  - cbn [mbind option_bind]. rewrite count_dirty_new by done. done.
Qed.

(** ** On an access, on the cache *)

Lemma addToSet_of_set r c k st d t b r' st' :
  get (sets c) k = Some st →
  LONG_MIN <= opCounter c + 1 <= LONG_MAX →
  addToSet_set r (opCounter c) st d t b = Some (r', st') →
  addToSet r c k d t b = Some (r', after_access c k st').
Proof.
  intros Hk Hopc Hset. unfold addToSet. rewrite Hk. cbn [mbind option_bind].
  rewrite Hset. cbn [mbind option_bind]. by rewrite add_long_1.
Qed.

Lemma addToSet_inv r c k d t b r' c' :
  addToSet r c k d t b = Some (r', c') →
  ∃ st st', get (sets c) k = Some st ∧
    addToSet_set r (opCounter c) st d t b = Some (r', st') ∧
    LONG_MIN <= opCounter c + 1 <= LONG_MAX ∧
    c' = after_access c k st'.
Proof.
  unfold addToSet. intros H.
  destruct (get (sets c) k) as [st|]; [|done]. cbn [mbind option_bind] in H.
  destruct (addToSet_set r (opCounter c) st d t b) as [[r1 st1]|] eqn:Hset; [|done].
  cbn [mbind option_bind] in H. unfold add_long in H.
  case_bool_decide; [|done]. cbn [mbind option_bind] in H.
  exists st, st1. by simplify_eq.
Qed.

(** ** On sums *)

Lemma sumZ_app {A} (f : A → Z) l1 l2 : sumZ f (l1 ++ l2) = sumZ f l1 + sumZ f l2.
Proof. induction l1 as [|x l1 IH]; simpl; [done|]. rewrite IH. lia. Qed.

Lemma sumZ_insert {A} (f : A → Z) l i x y :
  l !! i = Some x → sumZ f (<[i:=y]> l) = sumZ f l - f x + f y.
Proof.
  revert i. induction l as [|a l IH]; intros [|i] H; simplify_eq/=; [lia|].
  rewrite (IH i) by done. lia.
Qed.

Lemma sumZ_bound {A} (f : A → Z) M l :
  Forall (λ x, 0 <= f x <= M) l → 0 <= sumZ f l <= M * Z.of_nat (length l).
Proof. induction 1; simpl; lia. Qed.

(** ** On the dirty bytes that the cache holds *)

Lemma dirty_sum_set_put blk n cap ls i l x :
  0 <= i < n → get ls i = Some l →
  dirty_sum_set blk (mkSet n cap (put ls i x))
  = dirty_sum_set blk (mkSet n cap ls) - line_bytes blk l + line_bytes blk x.
Proof.
  intros Hi [_ Hl]%get_Some. unfold dirty_sum_set, resident, put. simpl.
  rewrite take_insert_lt by lia. apply sumZ_insert.
  rewrite lookup_take_lt by lia. done.
Qed.

Lemma dirty_sum_set_append blk n cap ls x :
  0 <= n < Z.of_nat (length ls) →
  dirty_sum_set blk (mkSet (n + 1) cap (put ls n x))
  = dirty_sum_set blk (mkSet n cap ls) + line_bytes blk x.
Proof.
  intros Hn. unfold dirty_sum_set, resident, put. simpl.
  replace (Z.to_nat (n + 1)) with (Datatypes.S (Z.to_nat n)) by lia.
  rewrite (take_S_r _ _ x) by (apply list_lookup_insert_eq; lia).
  rewrite take_insert_ge by lia. rewrite sumZ_app. simpl. lia.
Qed.

Lemma dirty_sum_after blk c k st st' :
  get (sets c) k = Some st →
  dirty_sum blk (after_access c k st')
  = dirty_sum blk c - dirty_sum_set blk st + dirty_sum_set blk st'.
Proof.
  intros [_ Hk]%get_Some. unfold dirty_sum, after_access, put. simpl.
  by apply sumZ_insert.
Qed.

Lemma dirty_sum_set_bound blk st :
  0 <= blk → 0 <= num st →
  0 <= dirty_sum_set blk st <= blk * num st.
Proof.
  intros Hblk Hn. unfold dirty_sum_set.
  assert (0 <= sumZ (line_bytes blk) (resident st)
          <= blk * Z.of_nat (length (resident st))) as H.
  { apply sumZ_bound. apply Forall_lookup. intros i l _.
    unfold line_bytes. case_bool_decide; lia. }
  assert (Z.of_nat (length (resident st)) <= num st).
  { unfold resident. rewrite length_take. lia. }
  nia.
Qed.

(** ** On the construction *)

Lemma loop_from_append {A} k i (body : Z → list A → option (list A)) x acc :
  (∀ j a, body j a = Some (a ++ [x])) →
  loop_from k i body acc = Some (acc ++ replicate k x).
Proof.
  intros Hbody. revert i acc. induction k as [|k IH]; intros i acc; simpl.
  - by rewrite app_nil_r.
  - rewrite Hbody. simpl. rewrite IH. by rewrite <- app_assoc.
Qed.

Lemma newSet_Some cap : cap <= INT_MAX → newSet cap = Some (set0 cap).
Proof.
  intros Hcap. unfold newSet, for_int. rewrite bool_decide_eq_true_2 by done.
  by rewrite (loop_from_append _ _ _ line0).
Qed.

Lemma newSet_inv cap st : newSet cap = Some st → cap <= INT_MAX ∧ st = set0 cap.
Proof.
  intros H. destruct (decide (cap <= INT_MAX)) as [Hc|Hc].
  - rewrite newSet_Some in H by done. by simplify_eq.
  - unfold newSet, for_int in H. by rewrite bool_decide_eq_false_2 in H.
Qed.

Lemma createCache_Some sb Ev :
  0 <= sb <= 30 → Ev <= INT_MAX → createCache sb Ev = Some (cache0 sb Ev).
Proof.
  intros Hsb HEv. unfold createCache. rewrite shl_long_1 by lia.
  cbn [mbind option_bind]. unfold for_int.
  assert (2 ^ sb <= 2 ^ 30) by (apply Z.pow_le_mono_r; lia).
  rewrite bool_decide_eq_true_2 by (unfold INT_MAX; lia).
  rewrite (loop_from_append _ _ _ (set0 Ev)); [done|].
  intros j a. by rewrite newSet_Some.
Qed.

Lemma createCache_inv sb Ev c :
  createCache sb Ev = Some c → 0 <= sb <= 30 ∧ Ev <= INT_MAX ∧ c = cache0 sb Ev.
Proof.
  intros H.
  assert (0 <= sb <= 30 ∧ Ev <= INT_MAX) as [Hsb HEv].
  { unfold createCache, shl_long in H.
    case_bool_decide as Hs; [|done]. cbn [mbind option_bind] in H.
    rewrite Z.shiftl_1_l in H. unfold for_int in H.
    case_bool_decide as Hn; [|done].
    assert (0 < 2 ^ sb) by (apply Z.pow_pos_nonneg; lia).
    assert (sb <= 30) as Hsb.
    { destruct (decide (sb <= 30)); [done|].
      assert (2 ^ 31 <= 2 ^ sb) by (apply Z.pow_le_mono_r; lia).
      unfold INT_MAX in Hn. lia. }
    split; [lia|].
    destruct (newSet Ev) as [st|] eqn:Hnew.
    - by apply newSet_inv in Hnew as [HEv _].
    - destruct (Z.to_nat (2 ^ sb)) as [|k] eqn:Hk; [lia|].
      cbn [loop_from] in H. done. }
  rewrite createCache_Some in H by done. by simplify_eq.
Qed.

(** ** On the outcome of an access, by cases *)

Lemma addToSet_set_cases r opc st d t b :
  wf_set st → tags_unique (num st) (lines st) →
  (∀ j l, 0 <= j < num st → get (lines st) j = Some l → 0 <= lruCounter l) →
  0 <= b <= 62 →
  access_case r opc st d t b (addToSet_set r opc st d t b).
Proof.
  intros Hwf Huniq Hpos Hb.
  destruct (tag_held_or_absent t (num st) (lines st)) as [(i & l & Hi & Hl & Ht)|Habs].
  - rewrite (addToSet_set_hit _ _ _ _ _ _ i l) by done. by apply case_hit.
  - destruct (decide (num st = capacity st)) as [Hfull|Hfree].
    + destruct (addToSet_set_evict r opc st d t b) as (v & victim & Hv & Hfl & Hvic & ->);
        try done.
      by apply (case_evict _ _ _ _ _ _ v victim).
    + assert (num st < capacity st) by (destruct Hwf; lia).
      rewrite addToSet_set_insert by done. by apply case_insert.
Qed.

(** ** On the invariant of the simulation *)

Lemma set_inv_mono Ev n m st : set_inv Ev n st → n <= m → set_inv Ev m st.
Proof.
  intros [Hwf HEv Huniq Hst] Hnm. split; try done.
  intros j l Hj Hl. specialize (Hst j l Hj Hl). lia.
Qed.

Lemma set_inv_put Ev opc st i x n' :
  set_inv Ev opc st → 0 <= opc →
  0 <= i < capacity st → num st <= n' <= capacity st →
  (∀ j, 0 <= j < n' → j ≠ i → j < num st) →
  (∀ j l, 0 <= j < num st → j ≠ i → get (lines st) j = Some l → tagBit l ≠ tagBit x) →
  lruCounter x = opc →
  set_inv Ev (opc + 1) (mkSet n' (capacity st) (put (lines st) i x)).
Proof.
  intros [[Hnum Hcap Hlen] HEv Huniq Hst] Hopc Hi Hn' Hidx Htag Hx.
  split; simpl.
  - split; simpl; [lia|lia|by rewrite length_put].
  - done.
  - intros a a' la lb Ha Hb Hla Hlb Heq.
    destruct (decide (a = i)) as [->|Hai], (decide (a' = i)) as [->|Hbi]; [done| | |].
    + rewrite get_put_eq in Hla by lia. rewrite get_put_ne in Hlb by lia. simplify_eq.
      exfalso. apply (Htag a' lb); [|done|done|done]. specialize (Hidx a'). lia.
    + rewrite get_put_eq in Hlb by lia. rewrite get_put_ne in Hla by lia. simplify_eq.
      exfalso. apply (Htag a la); [|done|done|done]. specialize (Hidx a). lia.
    + rewrite get_put_ne in Hla by lia. rewrite get_put_ne in Hlb by lia.
      apply (Huniq a a' la lb); try done.
      * specialize (Hidx a). lia.
      * specialize (Hidx a'). lia.
  - intros j l Hj Hl. destruct (decide (j = i)) as [->|Hne].
    + rewrite get_put_eq in Hl by lia. simplify_eq. lia.
    + rewrite get_put_ne in Hl by lia.
      assert (0 <= lruCounter l < opc); [|lia].
      apply (Hst j); [|done]. specialize (Hidx j). lia.
Qed.

Lemma set_inv_set0 Ev : 0 < Ev <= INT_MAX → set_inv Ev 0 (set0 Ev).
Proof.
  intros HEv. split; simpl.
  - split; simpl; [lia|lia|]. rewrite length_replicate. lia.
  - done.
  - intros i j li lj Hi. lia.
  - intros j l Hj. lia.
Qed.

Lemma Inv_init sb Ev b :
  0 <= sb → 0 < Ev <= INT_MAX → Inv sb Ev b 0 results0 (cache0 sb Ev).
Proof.
  intros Hsb HEv.
  assert (0 < 2 ^ sb) by (apply Z.pow_pos_nonneg; lia).
  split; simpl; try done; try lia.
  - rewrite length_replicate. lia.
  - intros k st [_ Hk]%get_Some. apply lookup_replicate in Hk as [-> _].
    by apply set_inv_set0.
  - unfold dirty_sum. simpl.
    assert (0 <= sumZ (dirty_sum_set (2 ^ b)) (replicate (Z.to_nat (2 ^ sb)) (set0 Ev))
            <= 0 * Z.of_nat (length (replicate (Z.to_nat (2 ^ sb)) (set0 Ev)))) as Hz.
    { apply sumZ_bound. apply Forall_lookup. intros i st Hst.
      apply lookup_replicate in Hst as [-> _]. done. }
    replace (sumZ _ _) with 0 by lia. done.
Qed.

Lemma dirty_sum_set_put' blk st cap i l x :
  0 <= i < num st → get (lines st) i = Some l →
  dirty_sum_set blk (mkSet (num st) cap (put (lines st) i x))
  = dirty_sum_set blk st - line_bytes blk l + line_bytes blk x.
Proof. intros Hi Hl. by rewrite (dirty_sum_set_put _ _ _ _ _ l). Qed.

Lemma dirty_sum_set_append' blk st cap x :
  0 <= num st < Z.of_nat (length (lines st)) →
  dirty_sum_set blk (mkSet (num st + 1) cap (put (lines st) (num st) x))
  = dirty_sum_set blk st + line_bytes blk x.
Proof. intros Hn. by rewrite dirty_sum_set_append. Qed.

Lemma Inv_after sb Ev b n r c k st r' st' :
  Inv sb Ev b n r c → n < LONG_MAX → get (sets c) k = Some st →
  set_inv Ev (n + 1) st' →
  0 <= hits r' → 0 <= misses r' → hits r' + misses r' = n + 1 →
  0 <= evictions r' <= misses r' →
  dirty_bytes r'
  = to_ulong (dirty_sum (2 ^ b) c - dirty_sum_set (2 ^ b) st + dirty_sum_set (2 ^ b) st') →
  Inv sb Ev b (n + 1) r' (after_access c k st').
Proof.
  intros [] Hn Hk Hst' Hh Hm Hhm He Hd. split; simpl; try done; try lia.
  - by rewrite length_put.
  - intros k' st1 Hk'. destruct (decide (k' = k)) as [->|Hne].
    + rewrite get_put_eq in Hk' by (by eapply get_Some_lt). by simplify_eq.
    + rewrite get_put_ne in Hk' by (apply get_Some in Hk; lia).
      apply (set_inv_mono _ n); [by eapply inv_sets0|lia].
  - by rewrite (dirty_sum_after _ _ _ st).
Qed.

Lemma Inv_access sb Ev b n r c k st d t r' st' :
  Inv sb Ev b n r c → 0 <= b <= 62 → n < LONG_MAX →
  get (sets c) k = Some st →
  addToSet_set r n st d t b = Some (r', st') →
  Inv sb Ev b (n + 1) r' (after_access c k st').
Proof.
  intros HI Hb Hn Hk Hset.
  pose proof HI as [_ _ _ _ Hn0 Hsets Hh Hm Hhm He Hd].
  pose proof (Hsets k st Hk) as Hsi. pose proof Hsi as [Hwf HEv Huniq Hst].
  pose proof Hwf as [Hnum Hcap Hlen].
  assert (∀ j l, 0 <= j < num st → get (lines st) j = Some l → 0 <= lruCounter l) as Hpos.
  { intros j l Hj Hl. specialize (Hst j l Hj Hl). lia. }
  pose proof (addToSet_set_cases r n st d t b Hwf Huniq Hpos Hb) as Hc.
  rewrite Hset in Hc. unfold LONG_MAX in *.
  inversion Hc as [i l Hi Hl Ht Heq|Habs Hfree Heq|v victim Habs Hfull Hv Hfl Hvic Heq];
    clear Hc; subst r' st'.
  - apply (Inv_after _ _ _ _ r c k st); try done.
    + apply set_inv_put; try done; try lia.
      intros j l' Hj Hne Hl' Heq. apply Hne. apply (Huniq j i l' l); done.
    + unfold hit_results; case_bool_decide; simpl; rewrite to_ulong_small;
        unfold ULONG_MOD; lia.
    + unfold hit_results; case_bool_decide; simpl; lia.
    + unfold hit_results; case_bool_decide; simpl; rewrite to_ulong_small;
        unfold ULONG_MOD; lia.
    + unfold hit_results; case_bool_decide; simpl; lia.
    + rewrite (dirty_sum_set_put' _ _ _ _ l) by done.
      unfold hit_results, hit_line, line_bytes. simpl.
      repeat case_bool_decide; simpl; try lia; rewrite Hd;
        rewrite ?to_ulong_add_l; f_equal; lia.
  - apply (Inv_after _ _ _ _ r c k st); try done.
    + apply set_inv_put; try done; try lia.
      intros j l' Hj Hne Hl'. simpl. by apply (Habs j).
    + unfold new_dirty; case_bool_decide; simpl; lia.
    + unfold new_dirty; case_bool_decide; simpl; apply to_ulong_range.
    + unfold new_dirty; case_bool_decide; simpl; rewrite to_ulong_small;
        unfold ULONG_MOD; lia.
    + unfold new_dirty; case_bool_decide; simpl; rewrite to_ulong_small;
        unfold ULONG_MOD; lia.
    + rewrite dirty_sum_set_append' by lia.
      unfold new_dirty, line_bytes. simpl.
      repeat case_bool_decide; simpl; try lia; rewrite Hd;
        rewrite ?to_ulong_add_l; f_equal; lia.
  - pose proof Hfl as [Hvr _].
    apply (Inv_after _ _ _ _ r c k st); try done.
    + apply set_inv_put; try done; try lia.
      intros j l' Hj Hne Hl'. simpl. by apply (Habs j).
    + unfold new_dirty, evict_dirty; repeat case_bool_decide; simpl; lia.
    + unfold new_dirty, evict_dirty; repeat case_bool_decide; simpl; apply to_ulong_range.
    + unfold new_dirty, evict_dirty; repeat case_bool_decide; simpl;
        rewrite to_ulong_small; unfold ULONG_MOD; lia.
    + unfold new_dirty, evict_dirty; repeat case_bool_decide; simpl;
        rewrite !to_ulong_small; unfold ULONG_MOD; lia.
    + rewrite (dirty_sum_set_put' _ _ _ _ victim) by done.
      unfold new_dirty, evict_dirty, line_bytes. simpl.
      repeat case_bool_decide; simpl; try lia; rewrite Hd;
        rewrite ?to_ulong_add_l, ?to_ulong_sub_l, ?to_ulong_sub_add; f_equal; lia.
Qed.

(** ** On the trace *)

Lemma step_addToSet sb b r c rc :
  step sb b (r, c) rc
  = '(set, tag) ← decompose sb b (addr rc);
    addToSet r c set (dirty_of rc) (to_long tag) b.
Proof.
  unfold step, dirty_of. destruct (decompose sb b (addr rc)) as [[set tag]|]; [|done].
  simpl. by destruct (Ascii.eqb (op rc) "S").
Qed.

Lemma decompose_Some sb b address :
  0 <= b → 0 <= sb → b + sb < 64 →
  decompose sb b address
  = Some (if bool_decide (sb = 0) then 0 else Z.land (Z.shiftr address b) (Z.ones sb),
          Z.shiftr address (b + sb)).
Proof.
  intros Hb Hs Hbs. unfold decompose, shr_ulong, shl_ulong.
  rewrite (bool_decide_eq_true_2 (0 <= b + sb < 64)) by lia.
  case_bool_decide as H0; [done|].
  rewrite !bool_decide_eq_true_2 by lia. simpl.
  by rewrite shl_shr_low_bits by lia.
Qed.

Lemma decompose_inv sb b address set tag :
  0 <= sb → decompose sb b address = Some (set, tag) → 0 <= b ∧ b + sb < 64.
Proof.
  intros Hs H. unfold decompose, shr_ulong, shl_ulong in H.
  repeat case_bool_decide; simplify_eq/=; lia.
Qed.

Lemma set_index_range sb x :
  0 <= sb →
  0 <= (if bool_decide (sb = 0) then 0 else Z.land x (Z.ones sb)) < 2 ^ sb.
Proof.
  intros Hs. case_bool_decide as H0.
  - subst. simpl. lia.
  - rewrite Z.land_ones by lia. apply Z.mod_pos_bound. apply Z.pow_pos_nonneg; lia.
Qed.

Lemma run_trace_app sb b st tr1 tr2 :
  run_trace sb b st (tr1 ++ tr2) = st' ← run_trace sb b st tr1; run_trace sb b st' tr2.
Proof.
  revert st. induction tr1 as [|rc tr1 IH]; intros st; simpl; [done|].
  destruct (step sb b st rc) as [st1|]; simpl; [apply IH|done].
Qed.

Lemma simulate_app sb Ev b tr1 tr2 :
  simulate sb Ev b (tr1 ++ tr2)
  = st ← simulate sb Ev b tr1; run_trace sb b st tr2.
Proof.
  unfold simulate. destruct (createCache sb Ev) as [c|]; simpl; [|done].
  apply run_trace_app.
Qed.

Lemma simulate_snoc sb Ev b tr rc :
  simulate sb Ev b (tr ++ [rc]) = st ← simulate sb Ev b tr; step sb b st rc.
Proof.
  rewrite simulate_app. destruct (simulate sb Ev b tr) as [st|]; simpl; [|done].
  by destruct (step sb b st rc).
Qed.

(** What an access does in a state that satisfies the invariant. *)
Lemma Inv_step sb Ev b n r c rc r' c' :
  Inv sb Ev b n r c → 0 <= b <= 62 →
  step sb b (r, c) rc = Some (r', c') →
  ∃ k tg st st',
    decompose sb b (addr rc) = Some (k, tg) ∧
    get (sets c) k = Some st ∧
    access_case r n st (dirty_of rc) (to_long tg) b (Some (r', st')) ∧
    c' = after_access c k st' ∧
    n < LONG_MAX ∧
    Inv sb Ev b (n + 1) r' c'.
Proof.
  intros HI Hb Hstep. rewrite step_addToSet in Hstep.
  destruct (decompose sb b (addr rc)) as [[k tg]|] eqn:Hdec; [|done].
  simpl in Hstep. apply addToSet_inv in Hstep as (st & st' & Hk & Hset & Hopc & ->).
  pose proof HI as [_ _ _ Hn _ Hsets _ _ _ _ _]. rewrite Hn in *.
  exists k, tg, st, st'. split; [done|]. split; [done|].
  pose proof (Hsets k st Hk) as [Hwf HEv Huniq Hst].
  split.
  { rewrite <- Hset. apply addToSet_set_cases; try done.
    intros j l Hj Hl. specialize (Hst j l Hj Hl). lia. }
  split; [done|]. split; [lia|].
  apply (Inv_access _ _ _ _ r c k st (dirty_of rc) (to_long tg)); try done. lia.
Qed.

Lemma simulate_Inv sb Ev b tr r c :
  0 < Ev → 0 <= b <= 62 →
  simulate sb Ev b tr = Some (r, c) →
  Inv sb Ev b (Z.of_nat (length tr)) r c.
Proof.
  intros HEv Hb. revert r c. induction tr as [|rc tr IH] using rev_ind; intros r c H.
  - unfold simulate in H. destruct (createCache sb Ev) as [c0|] eqn:Hc; [|done].
    simpl in H. simplify_eq. apply createCache_inv in Hc as (Hs & HE & ->).
    apply Inv_init; lia.
  - rewrite simulate_snoc in H.
    destruct (simulate sb Ev b tr) as [[r0 c0]|]; [|done]. simpl in H.
    destruct (Inv_step sb Ev b _ r0 c0 rc r c (IH r0 c0 eq_refl) Hb H)
      as (k & tg & st & st' & _ & _ & _ & _ & _ & HI).
    rewrite length_app. simpl.
    replace (Z.of_nat (length tr + 1)) with (Z.of_nat (length tr) + 1) by lia. done.
Qed.

(** The simulation of a trace has a result: the code runs into nothing
    undefined on a cache of at most [2^30] sets, with blocks of at most
    [2^62] bytes, for a trace of less than [2^63] records. *)
Lemma simulate_defined sb Ev b tr :
  0 <= sb <= 30 → 0 < Ev <= INT_MAX → 0 <= b <= 62 → b + sb < 64 →
  Z.of_nat (length tr) <= LONG_MAX →
  ∃ r c, simulate sb Ev b tr = Some (r, c).
Proof.
  intros Hs HEv Hb Hbs. induction tr as [|rc tr IH] using rev_ind; intros Hlen.
  - unfold simulate. rewrite createCache_Some by lia. simpl. eauto.
  - rewrite length_app in Hlen. simpl in Hlen.
    destruct IH as (r & c & Hsim); [lia|].
    rewrite simulate_snoc, Hsim. simpl.
    pose proof (simulate_Inv _ _ _ _ _ _ (proj1 HEv) Hb Hsim) as HI.
    pose proof HI as [_ _ Hl Hn _ Hsets _ _ _ _ _].
    rewrite step_addToSet, decompose_Some by lia. simpl.
    set (k := if bool_decide (sb = 0) then 0 else _).
    destruct (get_lt (sets c) k) as [st Hk].
    { rewrite Hl. apply set_index_range. lia. }
    pose proof (Hsets k st Hk) as [Hwf HE Huniq Hst].
    assert (access_case r (opCounter c) st (dirty_of rc)
              (to_long (Z.shiftr (addr rc) (b + sb))) b
              (addToSet_set r (opCounter c) st (dirty_of rc)
                 (to_long (Z.shiftr (addr rc) (b + sb))) b)) as Hc.
    { apply addToSet_set_cases; try done.
      intros j l Hj Hl'. specialize (Hst j l Hj Hl'). lia. }
    destruct (addToSet_set r (opCounter c) st (dirty_of rc)
                (to_long (Z.shiftr (addr rc) (b + sb))) b) as [[r' st']|] eqn:Hset;
      [|inversion Hc].
    eexists _, _. eapply addToSet_of_set; [done| |done].
    unfold LONG_MIN, LONG_MAX in *. lia.
Qed.

(** The state after a trace, and the access of one more record. *)
Lemma reach_step sb Ev b tr rc :
  valid_config sb Ev b → Z.of_nat (length tr) < LONG_MAX →
  ∃ r c r' c' k tg st st',
    simulate sb Ev b tr = Some (r, c) ∧
    Inv sb Ev b (Z.of_nat (length tr)) r c ∧
    step sb b (r, c) rc = Some (r', c') ∧
    decompose sb b (addr rc) = Some (k, tg) ∧
    get (sets c) k = Some st ∧
    access_case r (opCounter c) st (dirty_of rc) (to_long tg) b (Some (r', st')) ∧
    c' = after_access c k st' ∧
    Inv sb Ev b (Z.of_nat (length tr) + 1) r' c'.
Proof.
  intros [Hs HEv Hb Hbs] Hlen.
  destruct (simulate_defined sb Ev b (tr ++ [rc])) as (r' & c' & Hsim'); try done.
  { rewrite length_app. simpl. lia. }
  rewrite simulate_snoc in Hsim'.
  destruct (simulate sb Ev b tr) as [[r c]|] eqn:Hsim; [|done]. simpl in Hsim'.
  pose proof (simulate_Inv _ _ _ _ _ _ (proj1 HEv) Hb Hsim) as HI.
  destruct (Inv_step _ _ _ _ _ _ _ _ _ HI Hb Hsim')
    as (k & tg & st & st' & Hdec & Hk & Hc & -> & _ & HI').
  exists r, c, r', (after_access c k st'), k, tg, st, st'.
  rewrite (inv_opc _ _ _ _ _ _ HI). done.
Qed.

(** * The properties *)

(** X23: for every address and widths [b] and [s] that the shifts of [main]
    accept ([0 <= b], [0 <= s], [b + s < 64]), the decomposition has a
    result; the set index is 0 when [s = 0], and otherwise the address
    shifted right by [b] and masked to its low [s] bits; the tag is the
    address shifted right by [b + s]. *)
Theorem decompose_set_and_tag sb b address :
  0 <= b → 0 <= sb → b + sb < 64 →
  ∃ set tag,
    decompose sb b address = Some (set, tag) ∧
    (sb = 0 → set = 0) ∧
    (sb ≠ 0 → set = Z.land (Z.shiftr address b) (Z.ones sb)) ∧
    tag = Z.shiftr address (b + sb).
Proof.
  intros Hb Hs Hbs. eexists _, _. split; [by apply decompose_Some|].
  split; [|split; [|done]]; intros H0; case_bool_decide; done.
Qed.

Lemma decompose_set_and_tag_witness :
  ∃ set tag,
    decompose 4 6 65535 = Some (set, tag) ∧
    (4 = 0 → set = 0) ∧
    (4 ≠ 0 → set = Z.land (Z.shiftr 65535 6) (Z.ones 4)) ∧
    tag = Z.shiftr 65535 (6 + 4).
Proof. apply (decompose_set_and_tag 4 6 65535); lia. Defined.

(** C2, where the code misses it.  [main] accepts the widths [s = 1] and
    [b = 63]: the cache of two sets is built, the shifts of the set index
    are by 63 bits, and [address >> (b + s)] shifts the 64 bits of the
    address by 64.  The set index has its guard for [s = 0]; the tag has
    none for [b + s >= 64]: the shift is not defined, where the tag of the
    address 5 is to be [5 >> 64 = 0], and the access has no defined
    result. *)
Theorem tag_shift_by_64_undefined :
  createCache 1 1 = Some (cache0 1 1) ∧
  Z.shiftr 5 (63 + 1) = 0 ∧
  shr_ulong 5 (63 + 1) = None ∧
  decompose 1 63 5 = None ∧
  simulate 1 1 63 [L 5] = None.
Proof. repeat split; reflexivity. Qed.

(** C1: an access to a full set that holds no line with the tag of the
    access evicts the line of [indexLRU]: the line with the smallest
    [lruCounter], and of these the one with the lowest index.  A dirty victim
    takes the block size off [dirty_bytes] and adds it to [dirty_evictions];
    the victim's slot receives the dirty bit, the tag and the counter of the
    access, a store adds the block size to [dirty_bytes]; [misses] and
    [evictions] are incremented by one.  The five counters are
    [unsigned long]: their additions are modulo [2^64]. *)
Theorem evict_first_least_recently_used r c k st d t b :
  get (sets c) k = Some st → wf_set st →
  num st = capacity st → absent t (num st) (lines st) →
  (∀ j l, 0 <= j < num st → get (lines st) j = Some l → 0 <= lruCounter l) →
  0 <= b <= 62 → LONG_MIN <= opCounter c < LONG_MAX →
  ∃ v victim r' c',
    addToSet r c k d t b = Some (r', c') ∧
    first_least (lines st) (num st) v ∧
    get (lines st) v = Some victim ∧
    c' = mkCache (s c) (E c) (opCounter c + 1)
           (put (sets c) k
              (mkSet (num st) (capacity st)
                 (put (lines st) v (newLine d t (opCounter c))))) ∧
    hits r' = hits r ∧
    misses r' = to_ulong (misses r + 1) ∧
    evictions r' = to_ulong (evictions r + 1) ∧
    dirty_evictions r'
    = (if bool_decide (dirtyBit victim > 0)
       then to_ulong (dirty_evictions r + 2 ^ b) else dirty_evictions r) ∧
    dirty_bytes r'
    = (let kept := if bool_decide (dirtyBit victim > 0)
                   then to_ulong (dirty_bytes r - 2 ^ b) else dirty_bytes r in
       if bool_decide (d > 0) then to_ulong (kept + 2 ^ b) else kept).
Proof.
  intros Hk Hwf Hfull Habs Hpos Hb Hopc.
  destruct (addToSet_set_evict r (opCounter c) st d t b)
    as (v & victim & Hv & Hfl & Hvic & Hset); try done.
  exists v, victim. eexists _, _.
  split. { eapply addToSet_of_set; [done| |done]. unfold LONG_MIN, LONG_MAX in *. lia. }
  split; [done|]. split; [done|]. split; [done|].
  unfold new_dirty, evict_dirty. repeat case_bool_decide; done.
Qed.

Lemma evict_first_least_recently_used_witness :
  ∃ v victim r' c',
    addToSet (mkStats 1 2 0 1 0)
      (mkCache 1 2 3 [mkSet 2 2 [newLine 0 10 2; newLine 1 11 1]]) 0 1 12 0
    = Some (r', c') ∧
    first_least [newLine 0 10 2; newLine 1 11 1] 2 v ∧
    get [newLine 0 10 2; newLine 1 11 1] v = Some victim ∧
    c' = mkCache 1 2 (3 + 1)
           (put [mkSet 2 2 [newLine 0 10 2; newLine 1 11 1]] 0
              (mkSet 2 2 (put [newLine 0 10 2; newLine 1 11 1] v (newLine 1 12 3)))) ∧
    hits r' = 1 ∧
    misses r' = to_ulong (2 + 1) ∧
    evictions r' = to_ulong (0 + 1) ∧
    dirty_evictions r'
    = (if bool_decide (dirtyBit victim > 0) then to_ulong (0 + 2 ^ 0) else 0) ∧
    dirty_bytes r'
    = (let kept := if bool_decide (dirtyBit victim > 0)
                   then to_ulong (1 - 2 ^ 0) else 1 in
       if bool_decide (1 > 0) then to_ulong (kept + 2 ^ 0) else kept).
Proof.
  apply (evict_first_least_recently_used (mkStats 1 2 0 1 0)
           (mkCache 1 2 3 [mkSet 2 2 [newLine 0 10 2; newLine 1 11 1]]) 0
           (mkSet 2 2 [newLine 0 10 2; newLine 1 11 1]) 1 12 0).
  - reflexivity.
  - split; simpl; unfold INT_MAX; lia.
  - reflexivity.
  - intros j l Hj Hl. simpl in Hj.
    assert (j = 0 ∨ j = 1) as [-> | ->] by lia; vm_compute in Hl;
      injection Hl as <-; simpl; lia.
  - intros j l Hj Hl. simpl in Hj.
    assert (j = 0 ∨ j = 1) as [-> | ->] by lia; vm_compute in Hl;
      injection Hl as <-; simpl; lia.
  - lia.
  - unfold LONG_MIN, LONG_MAX. simpl. lia.
Defined.

(** C4: an access whose tag is held by a line in use of its set is a hit.
    The line takes the counter of the access and keeps its tag; a store to
    a clean line makes it dirty and adds the block size to [dirty_bytes]; on
    a dirty line, and for a load, [dirty_bytes] and the dirty bit are left as
    they are; [hits] is incremented by one, the other counters are left as
    they are; the number of lines in use is the same and no other line is
    written. *)
Theorem hit_updates_line r c k st d t b i l :
  get (sets c) k = Some st → wf_set st → tags_unique (num st) (lines st) →
  0 <= i < num st → get (lines st) i = Some l → tagBit l = t →
  0 <= b <= 62 → LONG_MIN <= opCounter c < LONG_MAX →
  ∃ r' c',
    addToSet r c k d t b = Some (r', c') ∧
    c' = mkCache (s c) (E c) (opCounter c + 1)
           (put (sets c) k
              (mkSet (num st) (capacity st)
                 (put (lines st) i
                    (newLine (if bool_decide (dirtyBit l = 0 ∧ d > 0)
                              then d else dirtyBit l)
                       (tagBit l) (opCounter c))))) ∧
    hits r' = to_ulong (hits r + 1) ∧
    misses r' = misses r ∧
    evictions r' = evictions r ∧
    dirty_evictions r' = dirty_evictions r ∧
    dirty_bytes r'
    = (if bool_decide (dirtyBit l = 0 ∧ d > 0)
       then to_ulong (dirty_bytes r + 2 ^ b) else dirty_bytes r).
Proof.
  intros Hk Hwf Huniq Hi Hl Ht Hb Hopc.
  eexists _, _. split.
  { eapply addToSet_of_set; [done| |].
    - unfold LONG_MIN, LONG_MAX in *. lia.
    - by apply (addToSet_set_hit _ _ _ _ _ _ i l). }
  split; [done|].
  unfold hit_results. case_bool_decide; done.
Qed.

Lemma hit_updates_line_witness :
  ∃ r' c',
    addToSet (mkStats 0 2 0 1 0)
      (mkCache 1 2 2 [mkSet 2 2 [newLine 0 10 0; newLine 1 11 1]]) 0 1 10 3
    = Some (r', c') ∧
    c' = mkCache 1 2 (2 + 1)
           (put [mkSet 2 2 [newLine 0 10 0; newLine 1 11 1]] 0
              (mkSet 2 2
                 (put [newLine 0 10 0; newLine 1 11 1] 0
                    (newLine (if bool_decide (0 = 0 ∧ 1 > 0) then 1 else 0) 10 2)))) ∧
    hits r' = to_ulong (0 + 1) ∧
    misses r' = 2 ∧
    evictions r' = 0 ∧
    dirty_evictions r' = 0 ∧
    dirty_bytes r' = (if bool_decide (0 = 0 ∧ 1 > 0) then to_ulong (1 + 2 ^ 3) else 1).
Proof.
  apply (hit_updates_line (mkStats 0 2 0 1 0)
           (mkCache 1 2 2 [mkSet 2 2 [newLine 0 10 0; newLine 1 11 1]]) 0
           (mkSet 2 2 [newLine 0 10 0; newLine 1 11 1]) 1 10 3 0 (newLine 0 10 0)).
  - reflexivity.
  - split; simpl; unfold INT_MAX; lia.
  - intros i j li lj Hi Hj Hli Hlj. simpl in Hi, Hj.
    assert (i = 0 ∨ i = 1) as [-> | ->] by lia;
      assert (j = 0 ∨ j = 1) as [-> | ->] by lia;
      vm_compute in Hli; vm_compute in Hlj;
      injection Hli as <-; injection Hlj as <-; simpl; lia.
  - simpl. lia.
  - reflexivity.
  - reflexivity.
  - lia.
  - unfold LONG_MIN, LONG_MAX. simpl. lia.
Defined.

(** An access writes one slot of the set: [x], with the tag and the counter
    of the access, at [i]. *)
Lemma access_case_put r opc st d t b r' st' :
  wf_set st →
  access_case r opc st d t b (Some (r', st')) →
  ∃ i x, 0 <= i < capacity st ∧ i < num st' ∧
    st' = mkSet (num st') (capacity st) (put (lines st) i x) ∧
    num st <= num st' <= capacity st ∧
    tagBit x = t ∧ lruCounter x = opc.
Proof.
  intros [Hnum Hcap Hlen] Hc.
  inversion Hc as [i l Hi Hl Ht Heq|Habs Hfree Heq|v victim Habs Hfull Hv Hfl Hvic Heq];
    subst.
  - exists i, (hit_line opc d l). simpl. repeat split; try done; lia.
  - exists (num st), (newLine d t opc). simpl. repeat split; try done; lia.
  - destruct Hfl as [Hvr _].
    exists v, (newLine d t opc). simpl. repeat split; try done; lia.
Qed.

(** C3, as the code has it: after every trace, [dirty_bytes] is the sum of
    the block size over the dirty lines in use of all sets, modulo [2^64]
    (the counter is an [unsigned long]); it is that sum itself when the
    capacity of the cache, [2^b * E * 2^s] bytes, is below [2^64]. *)
Theorem dirty_bytes_is_dirty_sum sb Ev b tr :
  valid_config sb Ev b → Z.of_nat (length tr) <= LONG_MAX →
  ∃ r c,
    simulate sb Ev b tr = Some (r, c) ∧
    dirty_bytes r = to_ulong (dirty_sum (2 ^ b) c) ∧
    (2 ^ b * (Ev * 2 ^ sb) < ULONG_MOD → dirty_bytes r = dirty_sum (2 ^ b) c).
Proof.
  intros Hvc Hlen. pose proof Hvc as [Hs HEv Hb Hbs].
  destruct (simulate_defined sb Ev b tr) as (r & c & Hsim); try done.
  exists r, c. split; [done|].
  pose proof (simulate_Inv _ _ _ _ _ _ (proj1 HEv) Hb Hsim) as HI.
  pose proof HI as [_ _ Hl _ _ Hsets _ _ _ _ Hd].
  split; [done|]. intros Hsmall. rewrite Hd. apply to_ulong_small.
  assert (0 < 2 ^ b) by (apply Z.pow_pos_nonneg; lia).
  assert (0 <= dirty_sum (2 ^ b) c <= 2 ^ b * Ev * Z.of_nat (length (sets c))) as Hbound.
  { apply sumZ_bound. apply Forall_lookup. intros i st Hi.
    assert (set_inv Ev (Z.of_nat (length tr)) st) as [[Hnum _ _] HE _ _].
    { apply (Hsets (Z.of_nat i)). apply get_Some. rewrite Nat2Z.id. split; [lia|done]. }
    pose proof (dirty_sum_set_bound (2 ^ b) st). nia. }
  rewrite Hl in Hbound. lia.
Qed.

Lemma dirty_bytes_is_dirty_sum_witness :
  ∃ r c,
    simulate 0 1 0 [St 0; L 16] = Some (r, c) ∧
    dirty_bytes r = to_ulong (dirty_sum (2 ^ 0) c) ∧
    (2 ^ 0 * (1 * 2 ^ 0) < ULONG_MOD → dirty_bytes r = dirty_sum (2 ^ 0) c).
Proof.
  apply (dirty_bytes_is_dirty_sum 0 1 0 [St 0; L 16]).
  - split; unfold INT_MAX; lia.
  - simpl. unfold LONG_MAX. lia.
Defined.

(** C3 as the specification states it does not hold for every cache: four
    stores to the four blocks of [2^62] bytes of the address space, in a set
    of four lines, leave four dirty lines, [2^64] bytes, and [dirty_bytes]
    at 0. *)
Lemma dirty_bytes_wraps :
  ∃ r c,
    simulate 0 4 62 [St 0; St 4611686018427387904; St 9223372036854775808;
                     St 13835058055282163712] = Some (r, c) ∧
    dirty_bytes r = 0 ∧
    dirty_sum (2 ^ 62) c = 18446744073709551616 ∧
    dirty_bytes r ≠ dirty_sum (2 ^ 62) c.
Proof.
  eexists _, _. split; [reflexivity|]. split; [reflexivity|].
  split; [reflexivity|]. discriminate.
Qed.

(** C5: after every trace, on a cache of [E > 0] lines per set, every set
    has between 0 and [E] lines in use; and the next access evicts (it
    increments [evictions], and a line in use receives another tag) if and only
    if its set has [E] lines in use and none of them holds its tag. *)
Theorem occupied_bounded_eviction_iff_full sb Ev b tr rc :
  valid_config sb Ev b → Z.of_nat (length tr) < LONG_MAX →
  ∃ r c r' c' k tg st st',
    simulate sb Ev b tr = Some (r, c) ∧
    E c = Ev ∧
    (∀ j stj, get (sets c) j = Some stj → 0 <= num stj <= Ev ∧ capacity stj = Ev) ∧
    decompose sb b (addr rc) = Some (k, tg) ∧
    get (sets c) k = Some st ∧
    step sb b (r, c) rc = Some (r', c') ∧
    get (sets c') k = Some st' ∧
    (num st = Ev ∧ absent (to_long tg) (num st) (lines st) →
       evictions r' = evictions r + 1 ∧ evicts st st') ∧
    (¬ (num st = Ev ∧ absent (to_long tg) (num st) (lines st)) →
       evictions r' = evictions r ∧ ¬ evicts st st').
Proof.
  intros Hvc Hlen.
  destruct (reach_step sb Ev b tr rc Hvc Hlen)
    as (r & c & r' & c' & k & tg & st & st' & Hsim & HI & Hstep & Hdec & Hk & Hc & -> & HI').
  exists r, c, r', (after_access c k st'), k, tg, st, st'.
  pose proof HI as [_ HE _ _ Hn Hsets Hh Hm Hhm He _].
  pose proof (Hsets k st Hk) as [Hwf Hcap Huniq Hst].
  pose proof Hwf as [Hnum Hcap' Hlen'].
  split; [done|]. split; [done|]. split.
  { intros j stj Hj. destruct (Hsets j stj Hj) as [[] ? _ _]. split; [lia|done]. }
  split; [done|]. split; [done|]. split; [done|]. split.
  { simpl. apply get_put_eq. by eapply get_Some_lt. }
  unfold LONG_MAX in *.
  inversion Hc as [i l Hi Hl Ht Heq|Habs Hfree Heq|v victim Habs Hfull Hv Hfl Hvic Heq];
    subst r' st'.
  - split.
    + intros [_ Habs]. exfalso. by apply (Habs i l).
    + intros _. split.
      * unfold hit_results. by case_bool_decide.
      * intros (v & l1 & l2 & Hv & Hl1 & Hl2 & Hne). simpl in Hl2.
        destruct (decide (v = i)) as [->|Hvi].
        -- rewrite get_put_eq in Hl2 by lia. by simplify_eq.
        -- rewrite get_put_ne in Hl2 by lia. by simplify_eq.
  - split.
    + intros [Hfull _]. lia.
    + intros _. split.
      * unfold new_dirty. by case_bool_decide.
      * intros (v & l1 & l2 & Hv & Hl1 & Hl2 & Hne). simpl in Hl2.
        rewrite get_put_ne in Hl2 by lia. by simplify_eq.
  - pose proof Hfl as [Hvr _]. split.
    + intros _. split.
      * unfold new_dirty, evict_dirty. repeat case_bool_decide; simpl;
          rewrite to_ulong_small; unfold ULONG_MOD; lia.
      * exists v, victim, (newLine (dirty_of rc) (to_long tg) (opCounter c)).
        split; [done|]. split; [done|]. split.
        -- simpl. apply get_put_eq. lia.
        -- simpl. intros Heq. by apply (Habs v victim).
    + intros Hnot. exfalso. apply Hnot. split; [lia|done].
Qed.

Lemma occupied_bounded_eviction_iff_full_witness :
  ∃ r c r' c' k tg st st',
    simulate 0 1 0 [St 0] = Some (r, c) ∧
    E c = 1 ∧
    (∀ j stj, get (sets c) j = Some stj → 0 <= num stj <= 1 ∧ capacity stj = 1) ∧
    decompose 0 0 (addr (L 16)) = Some (k, tg) ∧
    get (sets c) k = Some st ∧
    step 0 0 (r, c) (L 16) = Some (r', c') ∧
    get (sets c') k = Some st' ∧
    (num st = 1 ∧ absent (to_long tg) (num st) (lines st) →
       evictions r' = evictions r + 1 ∧ evicts st st') ∧
    (¬ (num st = 1 ∧ absent (to_long tg) (num st) (lines st)) →
       evictions r' = evictions r ∧ ¬ evicts st st').
Proof.
  apply (occupied_bounded_eviction_iff_full 0 1 0 [St 0] (L 16)).
  - split; unfold INT_MAX; lia.
  - simpl. unfold LONG_MAX. lia.
Defined.

(** C9: every access increments one of [hits] and [misses] by one and
    leaves the other as it is; after every trace, [hits + misses] is the
    number of the records of the trace, and so is [opCounter];
    [evictions] is at most [misses]. *)
Theorem hits_plus_misses_is_accesses sb Ev b tr rc :
  valid_config sb Ev b → Z.of_nat (length tr) < LONG_MAX →
  ∃ r c r' c',
    simulate sb Ev b tr = Some (r, c) ∧
    simulate sb Ev b (tr ++ [rc]) = Some (r', c') ∧
    hits r + misses r = Z.of_nat (length tr) ∧
    opCounter c = Z.of_nat (length tr) ∧
    evictions r <= misses r ∧
    (hits r' = hits r + 1 ∧ misses r' = misses r
     ∨ hits r' = hits r ∧ misses r' = misses r + 1) ∧
    hits r' + misses r' = Z.of_nat (length (tr ++ [rc])) ∧
    opCounter c' = Z.of_nat (length (tr ++ [rc])) ∧
    evictions r' <= misses r'.
Proof.
  intros Hvc Hlen.
  destruct (reach_step sb Ev b tr rc Hvc Hlen)
    as (r & c & r' & c' & k & tg & st & st' & Hsim & HI & Hstep & Hdec & Hk & Hc & -> & HI').
  exists r, c, r', (after_access c k st').
  pose proof HI as [_ _ _ Hopc _ _ Hh Hm Hhm He _].
  pose proof HI' as [_ _ _ Hopc' _ _ Hh' Hm' Hhm' He' _].
  split; [done|]. split; [by rewrite simulate_snoc, Hsim|].
  split; [done|]. split; [done|]. split; [lia|].
  rewrite length_app. simpl.
  split; [|split; [lia|split; [lia|lia]]].
  unfold LONG_MAX in *.
  inversion Hc as [i l Hi Hl Ht Heq|Habs Hfree Heq|v victim Habs Hfull Hv Hfl Hvic Heq];
    subst r' st'.
  - left. unfold hit_results. case_bool_decide; simpl;
      rewrite to_ulong_small; unfold ULONG_MOD; lia.
  - right. unfold new_dirty. case_bool_decide; simpl;
      rewrite to_ulong_small; unfold ULONG_MOD; lia.
  - right. unfold new_dirty, evict_dirty. repeat case_bool_decide; simpl;
      rewrite to_ulong_small; unfold ULONG_MOD; lia.
Qed.

Lemma hits_plus_misses_is_accesses_witness :
  ∃ r c r' c',
    simulate 0 2 0 [L 10; L 11; L 10] = Some (r, c) ∧
    simulate 0 2 0 ([L 10; L 11; L 10] ++ [L 12]) = Some (r', c') ∧
    hits r + misses r = Z.of_nat (length [L 10; L 11; L 10]) ∧
    opCounter c = Z.of_nat (length [L 10; L 11; L 10]) ∧
    evictions r <= misses r ∧
    (hits r' = hits r + 1 ∧ misses r' = misses r
     ∨ hits r' = hits r ∧ misses r' = misses r + 1) ∧
    hits r' + misses r' = Z.of_nat (length ([L 10; L 11; L 10] ++ [L 12])) ∧
    opCounter c' = Z.of_nat (length ([L 10; L 11; L 10] ++ [L 12])) ∧
    evictions r' <= misses r'.
Proof.
  apply (hits_plus_misses_is_accesses 0 2 0 [L 10; L 11; L 10] (L 12)).
  - split; unfold INT_MAX; lia.
  - simpl. unfold LONG_MAX. lia.
Defined.

Lemma addToSet_set_defined r opc st d t b :
  wf_set st → tags_unique (num st) (lines st) →
  (∀ j l, 0 <= j < num st → get (lines st) j = Some l → 0 <= lruCounter l) →
  0 <= b <= 62 →
  ∃ r' st', addToSet_set r opc st d t b = Some (r', st') ∧
    access_case r opc st d t b (Some (r', st')).
Proof.
  intros Hwf Huniq Hpos Hb.
  pose proof (addToSet_set_cases r opc st d t b Hwf Huniq Hpos Hb) as Hc.
  destruct (addToSet_set r opc st d t b) as [[r' st']|]; [|inversion Hc].
  by exists r', st'.
Qed.

(** C10: the number of lines in use of a set does not decrease along a
    trace: a position in use stays in use, and a set with [E] lines in use
    keeps [E] lines in use. *)
Theorem occupied_never_decreases sb Ev b tr tr' :
  valid_config sb Ev b → Z.of_nat (length (tr ++ tr')) <= LONG_MAX →
  ∃ r c r' c',
    simulate sb Ev b tr = Some (r, c) ∧
    simulate sb Ev b (tr ++ tr') = Some (r', c') ∧
    ∀ k st, get (sets c) k = Some st →
      ∃ st', get (sets c') k = Some st' ∧
        num st <= num st' ∧
        (∀ j, 0 <= j < num st → 0 <= j < num st') ∧
        (num st = Ev → num st' = Ev).
Proof.
  intros Hvc. induction tr' as [|rc tr' IH] using rev_ind; intros Hlen.
  - rewrite app_nil_r in *. pose proof Hvc as [Hs HEv Hb Hbs].
    destruct (simulate_defined sb Ev b tr) as (r & c & Hsim); try done.
    exists r, c, r, c. split; [done|]. split; [done|].
    intros k st Hk. exists st. split; [done|]. split; [lia|]. split; [lia|done].
  - rewrite app_assoc in *. rewrite length_app in Hlen. simpl in Hlen.
    destruct IH as (r & c & r1 & c1 & Hsim & Hsim1 & Hmono); [lia|].
    destruct (reach_step sb Ev b (tr ++ tr') rc Hvc)
      as (r1' & c1' & r2 & c2 & k & tg & stk & st2 & Hsim1' & HI & Hstep & Hdec & Hk
          & Hc & -> & HI'); [lia|].
    rewrite Hsim1 in Hsim1'. simplify_eq.
    exists r, c, r2, (after_access c1' k st2).
    split; [done|]. split; [by rewrite simulate_snoc, Hsim1|].
    intros j st Hj. destruct (Hmono j st Hj) as (st1 & Hj1 & Hle & _ & _).
    assert (∃ st', get (sets (after_access c1' k st2)) j = Some st' ∧ num st1 <= num st')
      as (st' & Hj' & Hle').
    { destruct (decide (j = k)) as [->|Hne].
      - exists st2. split.
        + simpl. apply get_put_eq. by eapply get_Some_lt.
        + assert (st1 = stk) as -> by congruence.
          destruct (inv_sets _ _ _ _ _ _ HI k stk Hk) as [Hwf _ _ _].
          destruct (access_case_put _ _ _ _ _ _ _ _ Hwf Hc) as (i & x & _ & _ & _ & ? & _).
          lia.
      - exists st1. split; [|lia]. simpl.
        rewrite get_put_ne; [done| |done]. apply get_Some in Hk. lia. }
    exists st'. split; [done|]. split; [lia|]. split; [lia|].
    destruct (inv_sets _ _ _ _ _ _ HI' j st' Hj') as [[Hn' _ _] HE' _ _]. lia.
Qed.

Lemma occupied_never_decreases_witness :
  ∃ r c r' c',
    simulate 0 2 0 [L 10] = Some (r, c) ∧
    simulate 0 2 0 ([L 10] ++ [L 11; L 12]) = Some (r', c') ∧
    ∀ k st, get (sets c) k = Some st →
      ∃ st', get (sets c') k = Some st' ∧
        num st <= num st' ∧
        (∀ j, 0 <= j < num st → 0 <= j < num st') ∧
        (num st = 2 → num st' = 2).
Proof.
  apply (occupied_never_decreases 0 2 0 [L 10] [L 11; L 12]).
  - split; unfold INT_MAX; lia.
  - simpl. unfold LONG_MAX. lia.
Defined.

(** C7: an access increments [opCounter] by one, and the line of the
    access, in each of the three cases, is stamped with the value that
    [opCounter] had before: the number of the accesses made before, 0 for the
    first.  No other [lruCounter] is written. *)
Theorem access_counter_is_stamp sb Ev b tr rc :
  valid_config sb Ev b → Z.of_nat (length tr) < LONG_MAX →
  ∃ r c r' c' k tg st st',
    simulate sb Ev b tr = Some (r, c) ∧
    step sb b (r, c) rc = Some (r', c') ∧
    decompose sb b (addr rc) = Some (k, tg) ∧
    get (sets c) k = Some st ∧
    get (sets c') k = Some st' ∧
    opCounter c = Z.of_nat (length tr) ∧
    opCounter c' = opCounter c + 1 ∧
    (∃ i l, 0 <= i < num st' ∧ get (lines st') i = Some l ∧
       tagBit l = to_long tg ∧ lruCounter l = opCounter c) ∧
    (∀ j l, get (lines st') j = Some l →
       get (lines st) j = Some l ∨ lruCounter l = opCounter c).
Proof.
  intros Hvc Hlen.
  destruct (reach_step sb Ev b tr rc Hvc Hlen)
    as (r & c & r' & c' & k & tg & st & st' & Hsim & HI & Hstep & Hdec & Hk & Hc & -> & HI').
  exists r, c, r', (after_access c k st'), k, tg, st, st'.
  destruct (inv_sets _ _ _ _ _ _ HI k st Hk) as [Hwf _ _ _].
  destruct (access_case_put _ _ _ _ _ _ _ _ Hwf Hc)
    as (i & x & Hi & Hi' & Hst' & Hnum & Htag & Hlru).
  pose proof Hwf as [_ _ Hlen'].
  do 4 (split; [done|]). split.
  { simpl. apply get_put_eq. by eapply get_Some_lt. }
  split; [by apply (inv_opc _ _ _ _ _ _ HI)|]. split; [done|].
  rewrite Hst'. simpl. split.
  - exists i, x. split; [lia|]. split; [|done]. apply get_put_eq. lia.
  - intros j l Hl. destruct (decide (j = i)) as [->|Hne].
    + rewrite get_put_eq in Hl by lia. simplify_eq. by right.
    + rewrite get_put_ne in Hl by lia. by left.
Qed.

Lemma access_counter_is_stamp_witness :
  ∃ r c r' c' k tg st st',
    simulate 1 1 0 [] = Some (r, c) ∧
    step 1 0 (r, c) (St 1) = Some (r', c') ∧
    decompose 1 0 (addr (St 1)) = Some (k, tg) ∧
    get (sets c) k = Some st ∧
    get (sets c') k = Some st' ∧
    opCounter c = Z.of_nat (length (@nil record)) ∧
    opCounter c' = opCounter c + 1 ∧
    (∃ i l, 0 <= i < num st' ∧ get (lines st') i = Some l ∧
       tagBit l = to_long tg ∧ lruCounter l = opCounter c) ∧
    (∀ j l, get (lines st') j = Some l →
       get (lines st) j = Some l ∨ lruCounter l = opCounter c).
Proof.
  apply (access_counter_is_stamp 1 1 0 [] (St 1)).
  - split; unfold INT_MAX; lia.
  - simpl. unfold LONG_MAX. lia.
Defined.

(** C8: an access writes one line of its set, the number of lines in use of
    that set, [opCounter] and the counters of the statistics.  The other
    lines of the set, its capacity, the other sets, and [s] and [E] of the
    cache are left as they are ([b] is not kept in the cache: [main] passes
    it to each access). *)
Theorem access_frame r c k st d t b :
  get (sets c) k = Some st → wf_set st → tags_unique (num st) (lines st) →
  (∀ j l, 0 <= j < num st → get (lines st) j = Some l → 0 <= lruCounter l) →
  0 <= b <= 62 → LONG_MIN <= opCounter c < LONG_MAX →
  ∃ r' c' st' i,
    addToSet r c k d t b = Some (r', c') ∧
    get (sets c') k = Some st' ∧
    s c' = s c ∧ E c' = E c ∧
    length (sets c') = length (sets c) ∧
    (∀ j, j ≠ k → get (sets c') j = get (sets c) j) ∧
    capacity st' = capacity st ∧
    length (lines st') = length (lines st) ∧
    (∀ j, j ≠ i → get (lines st') j = get (lines st) j).
Proof.
  intros Hk Hwf Huniq Hpos Hb Hopc.
  destruct (addToSet_set_defined r (opCounter c) st d t b) as (r' & st' & Hset & Hc);
    try done.
  destruct (access_case_put _ _ _ _ _ _ _ _ Hwf Hc)
    as (i & x & Hi & Hi' & Hst' & Hnum & Htag & Hlru).
  exists r', (after_access c k st'), st', i.
  split. { eapply addToSet_of_set; [done| |done]. unfold LONG_MIN, LONG_MAX in *. lia. }
  split. { simpl. apply get_put_eq. by eapply get_Some_lt. }
  split; [done|]. split; [done|].
  split. { simpl. apply length_put. }
  split. { intros j Hne. simpl. apply get_put_ne; [|done]. apply get_Some in Hk. lia. }
  rewrite Hst'. simpl. split; [done|]. split; [apply length_put|].
  intros j Hne. apply get_put_ne; [lia|done].
Qed.

Lemma access_frame_witness :
  ∃ r' c' st' i,
    addToSet (mkStats 0 1 0 1 0)
      (mkCache 2 1 1 [mkSet 1 1 [newLine 1 5 0]; mkSet 0 1 [newLine 0 0 0]]) 0 0 7 4
    = Some (r', c') ∧
    get (sets c') 0 = Some st' ∧
    s c' = 2 ∧ E c' = 1 ∧
    length (sets c') = 2%nat ∧
    (∀ j, j ≠ 0 →
       get (sets c') j
       = get [mkSet 1 1 [newLine 1 5 0]; mkSet 0 1 [newLine 0 0 0]] j) ∧
    capacity st' = 1 ∧
    length (lines st') = 1%nat ∧
    (∀ j, j ≠ i → get (lines st') j = get [newLine 1 5 0] j).
Proof.
  apply (access_frame (mkStats 0 1 0 1 0)
           (mkCache 2 1 1 [mkSet 1 1 [newLine 1 5 0]; mkSet 0 1 [newLine 0 0 0]]) 0
           (mkSet 1 1 [newLine 1 5 0]) 0 7 4).
  - reflexivity.
  - split; simpl; unfold INT_MAX; lia.
  - intros i j li lj Hi Hj _ _ _. simpl in Hi, Hj. lia.
  - intros j l Hj Hl. simpl in Hj. assert (j = 0) as -> by lia.
    vm_compute in Hl. injection Hl as <-. simpl. lia.
  - lia.
  - unfold LONG_MIN, LONG_MAX. simpl. lia.
Defined.

(** C6, as the code has it: [main] compares the operation with ['S'] only.
    A record with any other operation, [L] or not, is an access with the
    dirty bit 0: the access of a load at the same address.  (The size of
    the record is not used.) *)
Theorem other_operation_is_a_load sb b st rc :
  op rc ≠ "S"%char →
  step sb b st rc = step sb b st (L (addr rc)) ∧
  step sb b st rc
  = '(set, tag) ← decompose sb b (addr rc);
    addToSet st.1 st.2 set 0 (to_long tag) b.
Proof.
  intros Hop. apply Ascii.eqb_neq in Hop. unfold step, L. simpl. by rewrite Hop.
Qed.

Lemma other_operation_is_a_load_witness :
  step 0 0 (results0, cache0 0 1) (mkRecord "M" 16 4)
  = step 0 0 (results0, cache0 0 1) (L (addr (mkRecord "M" 16 4))) ∧
  step 0 0 (results0, cache0 0 1) (mkRecord "M" 16 4)
  = '(set, tag) ← decompose 0 0 (addr (mkRecord "M" 16 4));
    addToSet (results0, cache0 0 1).1 (results0, cache0 0 1).2 set 0 (to_long tag) 0.
Proof.
  apply (other_operation_is_a_load 0 0 (results0, cache0 0 1) (mkRecord "M" 16 4)).
  simpl. discriminate.
Defined.

(** C6 as the specification states it does not hold: a record with the
    operation [M] on the new cache of one line is a miss that takes the
    line. *)
Lemma other_operation_not_ignored :
  op (mkRecord "M" 16 4) ≠ "L"%char ∧
  op (mkRecord "M" 16 4) ≠ "S"%char ∧
  simulate 0 1 0 [] = Some (results0, cache0 0 1) ∧
  step 0 0 (results0, cache0 0 1) (mkRecord "M" 16 4)
  = Some (mkStats 0 1 0 0 0, mkCache 1 1 1 [mkSet 1 1 [newLine 0 16 0]]) ∧
  step 0 0 (results0, cache0 0 1) (mkRecord "M" 16 4) ≠ Some (results0, cache0 0 1).
Proof.
  split; [discriminate|]. split; [discriminate|].
  split; [reflexivity|]. split; [reflexivity|]. discriminate.
Qed.

(** * More of the code *)

(** ** Construction *)

(** X1: for [0 <= s <= 30] and [E] in the range of [int], [createCache]
    returns a cache of [2^s] sets with [opCounter] 0; every set is empty,
    has the capacity [E] and [E] lines (none for [E <= 0]), each with the
    dirty bit, the tag and the counter 0. *)
Theorem createCache_builds_empty_sets sb Ev :
  0 <= sb <= 30 → Ev <= INT_MAX →
  ∃ c,
    createCache sb Ev = Some c ∧
    s c = 2 ^ sb ∧ E c = Ev ∧ opCounter c = 0 ∧
    Z.of_nat (length (sets c)) = 2 ^ sb ∧
    ∀ k st, get (sets c) k = Some st →
      num st = 0 ∧ setEmpty st = true ∧ capacity st = Ev ∧
      Z.of_nat (length (lines st)) = Z.max 0 Ev ∧
      ∀ j l, get (lines st) j = Some l → l = newLine 0 0 0.
Proof.
  intros Hs HEv. exists (cache0 sb Ev).
  split; [by apply createCache_Some|].
  assert (0 < 2 ^ sb) by (apply Z.pow_pos_nonneg; lia).
  do 3 (split; [done|]). simpl. split; [rewrite length_replicate; lia|].
  intros k st [_ Hk]%get_Some. apply lookup_replicate in Hk as [-> _]. simpl.
  do 3 (split; [done|]). split; [rewrite length_replicate; lia|].
  intros j l [_ Hj]%get_Some. by apply lookup_replicate in Hj as [-> _].
Qed.

Lemma createCache_builds_empty_sets_witness :
  ∃ c,
    createCache 2 3 = Some c ∧
    s c = 2 ^ 2 ∧ E c = 3 ∧ opCounter c = 0 ∧
    Z.of_nat (length (sets c)) = 2 ^ 2 ∧
    ∀ k st, get (sets c) k = Some st →
      num st = 0 ∧ setEmpty st = true ∧ capacity st = 3 ∧
      Z.of_nat (length (lines st)) = Z.max 0 3 ∧
      ∀ j l, get (lines st) j = Some l → l = newLine 0 0 0.
Proof.
  apply (createCache_builds_empty_sets 2 3); unfold INT_MAX; lia.
Defined.

(** X2: [createCache] has a result exactly for [0 <= s <= 30] and
    [E <= INT_MAX]: for another [s] the shift [1L << s] or the [int]
    counter of the sets overflows, for a larger [E] the [int] counter of the
    lines. *)
Theorem createCache_defined_iff sb Ev :
  is_Some (createCache sb Ev) ↔ 0 <= sb <= 30 ∧ Ev <= INT_MAX.
Proof.
  split.
  - intros [c Hc]. apply createCache_inv in Hc as (? & ? & _). done.
  - intros [Hs HEv]. rewrite createCache_Some by done. by eexists.
Qed.

(** X3: [main] does not test [E]: with [E <= 0] the sets have no line, and
    the first access of a trace reads [lines[0]] outside the array. *)
Theorem access_without_lines_undefined sb Ev b rc tr :
  Ev <= 0 → simulate sb Ev b (rc :: tr) = None.
Proof.
  intros HEv. unfold simulate.
  destruct (createCache sb Ev) as [c|] eqn:Hc; [|done].
  apply createCache_inv in Hc as (_ & _ & ->). simpl.
  rewrite step_addToSet.
  destruct (decompose sb b (addr rc)) as [[k tg]|]; [|done]. simpl.
  unfold addToSet. simpl.
  destruct (get (replicate (Z.to_nat (2 ^ sb)) (set0 Ev)) k) as [st|] eqn:Hk; [|done].
  apply get_Some in Hk as [_ Hk]. apply lookup_replicate in Hk as [-> _].
  simpl. unfold addToSet_set. simpl.
  replace (Z.to_nat Ev) with 0%nat by lia. done.
Qed.

Lemma access_without_lines_undefined_witness :
  simulate 0 0 0 (L 0 :: []) = None.
Proof. apply (access_without_lines_undefined 0 0 0 (L 0) []). lia. Defined.

(** ** The miss that fills a line *)

(** X4: an access to a set with a line left ([num < capacity], the empty
    set among them) that holds no line with the tag is a miss without
    eviction: the first line not in use receives the dirty bit, the tag and
    the counter of the access, one more line is in use, the lines in use
    before are left as they are; [misses] is incremented by one, a store adds
    the block size to [dirty_bytes], the other counters are left as they
    are. *)
Theorem miss_fills_next_line r c k st d t b :
  get (sets c) k = Some st → wf_set st →
  num st < capacity st → absent t (num st) (lines st) →
  0 <= b <= 62 → LONG_MIN <= opCounter c < LONG_MAX →
  ∃ r' c',
    addToSet r c k d t b = Some (r', c') ∧
    c' = mkCache (s c) (E c) (opCounter c + 1)
           (put (sets c) k
              (mkSet (num st + 1) (capacity st)
                 (put (lines st) (num st) (newLine d t (opCounter c))))) ∧
    hits r' = hits r ∧
    misses r' = to_ulong (misses r + 1) ∧
    evictions r' = evictions r ∧
    dirty_evictions r' = dirty_evictions r ∧
    dirty_bytes r'
    = (if bool_decide (d > 0) then to_ulong (dirty_bytes r + 2 ^ b) else dirty_bytes r).
Proof.
  intros Hk Hwf Hfree Habs Hb Hopc.
  eexists _, _. split.
  { eapply addToSet_of_set; [done| |].
    - unfold LONG_MIN, LONG_MAX in *. lia.
    - by apply addToSet_set_insert. }
  split; [done|]. unfold new_dirty. case_bool_decide; done.
Qed.

Lemma miss_fills_next_line_witness :
  ∃ r' c',
    addToSet (mkStats 0 1 0 0 0)
      (mkCache 1 2 1 [mkSet 1 2 [newLine 0 10 0; newLine 0 0 0]]) 0 1 11 3
    = Some (r', c') ∧
    c' = mkCache 1 2 (1 + 1)
           (put [mkSet 1 2 [newLine 0 10 0; newLine 0 0 0]] 0
              (mkSet (1 + 1) 2
                 (put [newLine 0 10 0; newLine 0 0 0] 1 (newLine 1 11 1)))) ∧
    hits r' = 0 ∧
    misses r' = to_ulong (1 + 1) ∧
    evictions r' = 0 ∧
    dirty_evictions r' = 0 ∧
    dirty_bytes r' = (if bool_decide (1 > 0) then to_ulong (0 + 2 ^ 3) else 0).
Proof.
  apply (miss_fills_next_line (mkStats 0 1 0 0 0)
           (mkCache 1 2 1 [mkSet 1 2 [newLine 0 10 0; newLine 0 0 0]]) 0
           (mkSet 1 2 [newLine 0 10 0; newLine 0 0 0]) 1 11 3).
  - reflexivity.
  - split; simpl; unfold INT_MAX; lia.
  - simpl. lia.
  - intros j l Hj Hl. simpl in Hj. assert (j = 0) as -> by lia.
    vm_compute in Hl. injection Hl as <-. simpl. lia.
  - lia.
  - unfold LONG_MIN, LONG_MAX. simpl. lia.
Defined.

(** ** indexLRU on any counters *)

Lemma indexLRU_body_Some ls i m v l :
  get ls i = Some l →
  indexLRU_body ls i (m, v)
  = Some (if bool_decide (m < 0) then (lruCounter l, i)
          else if bool_decide (lruCounter l < m) then (lruCounter l, i)
          else (m, v)).
Proof.
  intros Hl. unfold indexLRU_body. rewrite Hl. simpl.
  by repeat case_bool_decide.
Qed.

Lemma indexLRU_loop_range ls k : ∀ i m v,
  0 <= i → i + Z.of_nat k <= Z.of_nat (length ls) →
  ∃ m' v', loop_from k i (indexLRU_body ls) (m, v) = Some (m', v') ∧
    (v' = v ∨ i <= v' < i + Z.of_nat k).
Proof.
  induction k as [|k IH]; intros i m v Hi Hlen.
  - exists m, v. split; [done|]. by left.
  - cbn [loop_from]. destruct (get_lt ls i) as [l Hl]; [lia|].
    rewrite (indexLRU_body_Some _ _ _ _ l) by done. cbn [mbind option_bind].
    repeat case_bool_decide;
      match goal with
      | |- context [loop_from k (i + 1) _ (?m1, ?v1)] =>
          destruct (IH (i + 1) m1 v1) as (m' & v' & -> & Hv); [lia|lia|]
      end;
      exists m', v'; (split; [done|]); lia.
Qed.

(** X5: [indexLRU] returns -1 for a set with no line in use; for a set
    with lines in use it returns the index of one of them, whatever their
    counters are: [addToSet] evicts inside the array. *)
Theorem indexLRU_in_range st :
  num st <= INT_MAX → num st <= Z.of_nat (length (lines st)) →
  (num st <= 0 → indexLRU st = Some (-1)) ∧
  (0 < num st → ∃ v, indexLRU st = Some v ∧ 0 <= v < num st).
Proof.
  intros Hint Hlen. unfold indexLRU, for_int.
  rewrite bool_decide_eq_true_2 by done. split.
  - intros H0. by replace (Z.to_nat (num st)) with 0%nat by lia.
  - intros Hpos.
    destruct (Z.to_nat (num st)) as [|k] eqn:Hk; [lia|].
    cbn [loop_from]. destruct (get_lt (lines st) 0) as [l0 Hl0]; [lia|].
    rewrite (indexLRU_body_Some _ _ _ _ l0) by done. cbn [mbind option_bind].
    rewrite bool_decide_eq_true_2 by lia.
    destruct (indexLRU_loop_range (lines st) k (0 + 1) (lruCounter l0) 0)
      as (m' & v' & -> & Hv); [lia|lia|].
    exists v'. split; [done|]. lia.
Qed.

Lemma indexLRU_in_range_witness :
  (num (mkSet 2 2 [newLine 0 1 (-5); newLine 0 2 3]) <= 0 →
     indexLRU (mkSet 2 2 [newLine 0 1 (-5); newLine 0 2 3]) = Some (-1)) ∧
  (0 < num (mkSet 2 2 [newLine 0 1 (-5); newLine 0 2 3]) →
     ∃ v, indexLRU (mkSet 2 2 [newLine 0 1 (-5); newLine 0 2 3]) = Some v ∧
       0 <= v < num (mkSet 2 2 [newLine 0 1 (-5); newLine 0 2 3])).
Proof.
  apply (indexLRU_in_range (mkSet 2 2 [newLine 0 1 (-5); newLine 0 2 3]));
    simpl; unfold INT_MAX; lia.
Defined.

(** ** The decomposition of the address *)

Lemma decompose_block sb b address :
  0 <= b → 0 <= sb → b + sb < 64 →
  decompose sb b address
  = Some (Z.shiftr address b mod 2 ^ sb, Z.shiftr address b / 2 ^ sb).
Proof.
  intros Hb Hs Hbs. rewrite decompose_Some by done. f_equal. f_equal.
  - case_bool_decide as H0.
    + subst. by rewrite Z.mod_1_r.
    + by rewrite Z.land_ones.
  - rewrite <- Z.shiftr_shiftr by done. by rewrite Z.shiftr_div_pow2.
Qed.

Lemma div_mod_inj x y m :
  0 < m → x mod m = y mod m → x / m = y / m → x = y.
Proof.
  intros Hm Hmod Hdiv.
  rewrite (Z.div_mod x m) by lia. rewrite (Z.div_mod y m) by lia.
  by rewrite Hmod, Hdiv.
Qed.

Lemma decompose_same_block sb b a1 a2 :
  0 <= b → 0 <= sb → b + sb < 64 →
  Z.shiftr a1 b = Z.shiftr a2 b → decompose sb b a1 = decompose sb b a2.
Proof. intros Hb Hs Hbs Heq. rewrite !decompose_block by done. by rewrite Heq. Qed.

(** X6: two addresses have the same set index and the same tag exactly
    when they are in the same block, that is, when they differ in the low
    [b] bits only. *)
Theorem decompose_same_iff_same_block sb b a1 a2 :
  0 <= b → 0 <= sb → b + sb < 64 →
  decompose sb b a1 = decompose sb b a2 ↔ Z.shiftr a1 b = Z.shiftr a2 b.
Proof.
  intros Hb Hs Hbs. split.
  - rewrite !decompose_block by done. intros Heq. injection Heq as Hset Htag.
    apply (div_mod_inj _ _ (2 ^ sb)); [|done|done].
    apply Z.pow_pos_nonneg; lia.
  - by apply decompose_same_block.
Qed.

Lemma decompose_same_iff_same_block_witness :
  decompose 2 4 4660 = decompose 2 4 4671 ↔ Z.shiftr 4660 4 = Z.shiftr 4671 4.
Proof. apply (decompose_same_iff_same_block 2 4 4660 4671); lia. Defined.

(** X7: the set index is an index of [cache->sets], the tag is below
    [2^(64-b-s)], and the address is again the tag, the set index and the
    offset in the block, put side by side. *)
Theorem decompose_reassembles sb b address :
  0 <= b → 0 <= sb → b + sb < 64 → 0 <= address < ULONG_MOD →
  ∃ set tag,
    decompose sb b address = Some (set, tag) ∧
    0 <= set < 2 ^ sb ∧
    0 <= tag < 2 ^ (64 - b - sb) ∧
    address = tag * 2 ^ (b + sb) + set * 2 ^ b + address mod 2 ^ b.
Proof.
  intros Hb Hs Hbs Ha. eexists _, _. split; [by apply decompose_block|].
  assert (0 < 2 ^ sb) by (apply Z.pow_pos_nonneg; lia).
  assert (0 < 2 ^ b) by (apply Z.pow_pos_nonneg; lia).
  rewrite Z.shiftr_div_pow2 by done.
  split; [apply Z.mod_pos_bound; lia|].
  split.
  - split; [apply Z.div_pos; [apply Z.div_pos|]; lia|].
    rewrite Z.div_div by lia. rewrite <- Z.pow_add_r by lia.
    apply Z.div_lt_upper_bound; [apply Z.pow_pos_nonneg; lia|].
    rewrite <- Z.pow_add_r by lia.
    replace (b + sb + (64 - b - sb)) with 64 by lia.
    unfold ULONG_MOD in Ha. lia.
  - rewrite Z.pow_add_r by lia.
    pose proof (Z.div_mod address (2 ^ b)).
    pose proof (Z.div_mod (address / 2 ^ b) (2 ^ sb)).
    nia.
Qed.

Lemma decompose_reassembles_witness :
  ∃ set tag,
    decompose 2 4 4660 = Some (set, tag) ∧
    0 <= set < 2 ^ 2 ∧
    0 <= tag < 2 ^ (64 - 4 - 2) ∧
    4660 = tag * 2 ^ (4 + 2) + set * 2 ^ 4 + 4660 mod 2 ^ 4.
Proof.
  apply (decompose_reassembles 2 4 4660); unfold ULONG_MOD; lia.
Defined.

(** X8: the simulation reads of a record that it is a store or not, and
    the block of its address; the size, the offset in the block and the
    operation of a record that is not a store are not used.  Two traces
    that are record by record the same access have the same result. *)
Theorem same_accesses_same_result sb Ev b tr1 tr2 :
  0 <= b → 0 <= sb → b + sb < 64 →
  Forall2 (same_access b) tr1 tr2 →
  simulate sb Ev b tr1 = simulate sb Ev b tr2.
Proof.
  intros Hb Hs Hbs Hsame. unfold simulate.
  destruct (createCache sb Ev) as [c|]; [|done]. simpl.
  generalize (results0, c). induction Hsame as [|rc1 rc2 tr1 tr2 [Hop Hblk] _ IH];
    intros st; [done|].
  simpl. destruct st as [r c0].
  assert (step sb b (r, c0) rc1 = step sb b (r, c0) rc2) as ->.
  { rewrite !step_addToSet.
    rewrite (decompose_same_block sb b _ _ Hb Hs Hbs Hblk).
    unfold dirty_of.
    destruct (Ascii.eqb_spec (op rc1) "S") as [H1|H1],
             (Ascii.eqb_spec (op rc2) "S") as [H2|H2]; tauto. }
  destruct (step sb b (r, c0) rc2) as [st'|]; [apply IH|done].
Qed.

Lemma same_accesses_same_result_witness :
  simulate 1 2 4 [mkRecord "L" 4660 4; mkRecord "S" 32 1]
  = simulate 1 2 4 [mkRecord "M" 4671 8; mkRecord "S" 47 2].
Proof.
  apply (same_accesses_same_result 1 2 4); try lia.
  apply Forall2_cons; [|apply Forall2_cons; [|apply Forall2_nil]].
  - split; [split; simpl; discriminate|reflexivity].
  - split; [split; reflexivity|reflexivity].
Defined.

(** ** Induction on the trace *)

Lemma access_case_slot r opc st d t b r' st' :
  wf_set st →
  access_case r opc st d t b (Some (r', st')) →
  ∃ i x, 0 <= i < capacity st ∧ i < num st' ∧
    st' = mkSet (num st') (capacity st) (put (lines st) i x) ∧
    num st <= num st' <= capacity st ∧
    tagBit x = t ∧ lruCounter x = opc ∧
    (∀ j, 0 <= j < num st' → j ≠ i → j < num st).
Proof.
  intros [Hnum Hcap Hlen] Hc.
  inversion Hc as [i l Hi Hl Ht Heq|Habs Hfree Heq|v victim Habs Hfull Hv Hfl Hvic Heq];
    subst.
  - exists i, (hit_line opc d l). simpl. repeat split; try done; lia.
  - exists (num st), (newLine d t opc). simpl. repeat split; try done; lia.
  - destruct Hfl as [Hvr _].
    exists v, (newLine d t opc). simpl. repeat split; try done; lia.
Qed.

(** A property of the trace and the state that holds for the new cache
    and that every access keeps holds after every trace. *)
Lemma simulate_ind sb Ev b (P : list record → csim_stats_t → Cache → Prop) :
  0 < Ev → 0 <= b <= 62 →
  P [] results0 (cache0 sb Ev) →
  (∀ tr r c rc r' k tg st st',
     Inv sb Ev b (Z.of_nat (length tr)) r c → P tr r c →
     decompose sb b (addr rc) = Some (k, tg) →
     get (sets c) k = Some st →
     access_case r (Z.of_nat (length tr)) st (dirty_of rc) (to_long tg) b
       (Some (r', st')) →
     Z.of_nat (length tr) < LONG_MAX →
     Inv sb Ev b (Z.of_nat (length tr) + 1) r' (after_access c k st') →
     P (tr ++ [rc]) r' (after_access c k st')) →
  ∀ tr r c, simulate sb Ev b tr = Some (r, c) → P tr r c.
Proof.
  intros HEv Hb H0 Hstep tr.
  induction tr as [|rc tr IH] using rev_ind; intros r c H.
  - unfold simulate in H. destruct (createCache sb Ev) as [c0|] eqn:Hc; [|done].
    simpl in H. simplify_eq. by apply createCache_inv in Hc as (_ & _ & ->).
  - rewrite simulate_snoc in H.
    destruct (simulate sb Ev b tr) as [[r0 c0]|] eqn:Hsim; [|done]. simpl in H.
    pose proof (simulate_Inv _ _ _ _ _ _ HEv Hb Hsim) as HI.
    destruct (Inv_step _ _ _ _ _ _ _ _ _ HI Hb H)
      as (k & tg & st & st' & Hdec & Hk & Hc & -> & Hn & HI').
    apply (Hstep tr r0 c0 rc r k tg st st'); try done.
    by apply IH.
Qed.

(** The counters of the statistics and the lines in use, in the three
    cases of an access. *)
Lemma access_case_counters sb Ev b n r c st d t r' st' :
  Inv sb Ev b n r c → n < LONG_MAX →
  access_case r n st d t b (Some (r', st')) →
  hits r' = hits r + 1 ∧ misses r' = misses r ∧ evictions r' = evictions r
    ∧ num st' = num st
  ∨ hits r' = hits r ∧ misses r' = misses r + 1 ∧ evictions r' = evictions r
    ∧ num st' = num st + 1
  ∨ hits r' = hits r ∧ misses r' = misses r + 1 ∧ evictions r' = evictions r + 1
    ∧ num st' = num st ∧ num st = capacity st.
Proof.
  intros [_ _ _ _ Hn0 _ Hh Hm Hhm He _] Hn Hc. unfold LONG_MAX in *.
  inversion Hc as [i l Hi Hl Ht Heq|Habs Hfree Heq|v victim Habs Hfull Hv Hfl Hvic Heq];
    subst r' st'.
  - left. unfold hit_results. case_bool_decide; simpl;
      rewrite to_ulong_small; unfold ULONG_MOD; lia.
  - right. left. unfold new_dirty. case_bool_decide; simpl;
      rewrite to_ulong_small; unfold ULONG_MOD; lia.
  - right. right. unfold new_dirty, evict_dirty. repeat case_bool_decide; simpl;
      rewrite !to_ulong_small; unfold ULONG_MOD; lia.
Qed.

Lemma stamps_unique_kept sb Ev b tr r c :
  0 < Ev → 0 <= b <= 62 →
  simulate sb Ev b tr = Some (r, c) →
  ∀ k st, get (sets c) k = Some st → stamps_unique (num st) (lines st).
Proof.
  intros HEv Hb. revert tr r c.
  apply (simulate_ind sb Ev b
           (λ _ _ c, ∀ k st, get (sets c) k = Some st → stamps_unique (num st) (lines st)));
    try done.
  - intros k st [_ Hk]%get_Some. apply lookup_replicate in Hk as [-> _].
    intros i j li lj Hi. simpl in Hi. lia.
  - intros tr r c rc r' k tg st st' HI HP Hdec Hk Hc Hn HI' k' st1 Hk'. simpl in Hk'.
    destruct (decide (k' = k)) as [->|Hne];
      [|rewrite get_put_ne in Hk' by (apply get_Some in Hk; lia); by apply (HP k')].
    rewrite get_put_eq in Hk' by (by eapply get_Some_lt). simplify_eq.
    destruct (inv_sets _ _ _ _ _ _ HI k st Hk) as [Hwf _ _ Hst].
    pose proof Hwf as [_ _ Hlen].
    destruct (access_case_slot _ _ _ _ _ _ _ _ Hwf Hc)
      as (i & x & Hi & Hi' & Hst' & Hnum & _ & Hlru & Hidx).
    rewrite Hst'. simpl. intros a a' la lb Ha Hb' Hla Hlb Heq.
    destruct (decide (a = i)) as [->|Hai], (decide (a' = i)) as [->|Hbi]; [done| | |].
    + rewrite get_put_eq in Hla by lia. rewrite get_put_ne in Hlb by lia. simplify_eq.
      assert (0 <= lruCounter lb < Z.of_nat (length tr)); [|lia].
      apply (Hst a'); [|done]. specialize (Hidx a'). lia.
    + rewrite get_put_eq in Hlb by lia. rewrite get_put_ne in Hla by lia. simplify_eq.
      assert (0 <= lruCounter la < Z.of_nat (length tr)); [|lia].
      apply (Hst a); [|done]. specialize (Hidx a). lia.
    + rewrite get_put_ne in Hla by lia. rewrite get_put_ne in Hlb by lia.
      apply (HP k st Hk a a' la lb); try done.
      * specialize (Hidx a). lia.
      * specialize (Hidx a'). lia.
Qed.

(** ** What every reachable cache satisfies *)

(** X9: after every trace, the lines in use of a set hold different tags:
    a block is in the cache once. *)
Theorem resident_tags_differ sb Ev b tr :
  valid_config sb Ev b → Z.of_nat (length tr) <= LONG_MAX →
  ∃ r c,
    simulate sb Ev b tr = Some (r, c) ∧
    ∀ k st, get (sets c) k = Some st → tags_unique (num st) (lines st).
Proof.
  intros [Hs HEv Hb Hbs] Hlen.
  destruct (simulate_defined sb Ev b tr) as (r & c & Hsim); try done.
  exists r, c. split; [done|]. intros k st Hk.
  pose proof (simulate_Inv _ _ _ _ _ _ (proj1 HEv) Hb Hsim) as HI.
  by destruct (inv_sets _ _ _ _ _ _ HI k st Hk).
Qed.

Lemma resident_tags_differ_witness :
  ∃ r c,
    simulate 0 2 0 [L 10; L 11; L 10; L 12] = Some (r, c) ∧
    ∀ k st, get (sets c) k = Some st → tags_unique (num st) (lines st).
Proof.
  apply (resident_tags_differ 0 2 0 [L 10; L 11; L 10; L 12]).
  - split; unfold INT_MAX; lia.
  - simpl. unfold LONG_MAX. lia.
Defined.

(** X10: after every trace, the lines in use of a set carry different
    counters, all of them at least 0 and below [opCounter]: the order of
    the last uses is strict, and [indexLRU] meets neither a tie nor a
    negative counter. *)
Theorem resident_counters_differ sb Ev b tr :
  valid_config sb Ev b → Z.of_nat (length tr) <= LONG_MAX →
  ∃ r c,
    simulate sb Ev b tr = Some (r, c) ∧
    ∀ k st, get (sets c) k = Some st →
      stamps_unique (num st) (lines st) ∧
      ∀ j l, 0 <= j < num st → get (lines st) j = Some l →
        0 <= lruCounter l < opCounter c.
Proof.
  intros [Hs HEv Hb Hbs] Hlen.
  destruct (simulate_defined sb Ev b tr) as (r & c & Hsim); try done.
  exists r, c. split; [done|]. intros k st Hk. split.
  - by apply (stamps_unique_kept sb Ev b tr r c (proj1 HEv) Hb Hsim k).
  - pose proof (simulate_Inv _ _ _ _ _ _ (proj1 HEv) Hb Hsim) as HI.
    rewrite (inv_opc _ _ _ _ _ _ HI).
    by destruct (inv_sets _ _ _ _ _ _ HI k st Hk).
Qed.

Lemma resident_counters_differ_witness :
  ∃ r c,
    simulate 0 2 0 [L 10; L 11; L 10; L 12] = Some (r, c) ∧
    ∀ k st, get (sets c) k = Some st →
      stamps_unique (num st) (lines st) ∧
      ∀ j l, 0 <= j < num st → get (lines st) j = Some l →
        0 <= lruCounter l < opCounter c.
Proof.
  apply (resident_counters_differ 0 2 0 [L 10; L 11; L 10; L 12]).
  - split; unfold INT_MAX; lia.
  - simpl. unfold LONG_MAX. lia.
Defined.

Lemma lines_in_use_after c k st st' :
  get (sets c) k = Some st →
  lines_in_use (after_access c k st') = lines_in_use c - num st + num st'.
Proof.
  intros [_ Hk]%get_Some. unfold lines_in_use, after_access, put. simpl.
  by apply sumZ_insert.
Qed.

(** X11: after every trace, the number of lines in use over all sets is
    [misses - evictions]: a miss takes a new line or evicts, a hit does
    neither; it is at most the [E * 2^s] lines of the cache. *)
Theorem lines_in_use_is_misses_less_evictions sb Ev b tr :
  valid_config sb Ev b → Z.of_nat (length tr) <= LONG_MAX →
  ∃ r c,
    simulate sb Ev b tr = Some (r, c) ∧
    lines_in_use c = misses r - evictions r ∧
    0 <= lines_in_use c <= Ev * 2 ^ sb.
Proof.
  intros [Hs HEv Hb Hbs] Hlen.
  destruct (simulate_defined sb Ev b tr) as (r & c & Hsim); try done.
  exists r, c. split; [done|]. split.
  - revert tr r c Hsim Hlen.
    apply (simulate_ind sb Ev b
             (λ tr r c, Z.of_nat (length tr) <= LONG_MAX →
                        lines_in_use c = misses r - evictions r)); try lia.
    + intros _. unfold lines_in_use. simpl.
      assert (0 <= sumZ num (replicate (Z.to_nat (2 ^ sb)) (set0 Ev))
              <= 0 * Z.of_nat (length (replicate (Z.to_nat (2 ^ sb)) (set0 Ev)))) as Hz.
      { apply sumZ_bound. apply Forall_lookup. intros i st Hst.
        apply lookup_replicate in Hst as [-> _]. done. }
      lia.
    + intros tr r c rc r' k tg st st' HI HP Hdec Hk Hc Hn HI' _.
      rewrite (lines_in_use_after _ _ st) by done.
      destruct (access_case_counters _ _ _ _ _ _ _ _ _ _ _ HI Hn Hc)
        as [H|[H|H]]; lia.
  - pose proof (simulate_Inv _ _ _ _ _ _ (proj1 HEv) Hb Hsim) as HI.
    pose proof HI as [_ _ Hl _ _ Hsets _ _ _ _ _].
    assert (0 <= lines_in_use c <= Ev * Z.of_nat (length (sets c))) as Hbound.
    { apply sumZ_bound. apply Forall_lookup. intros i st Hi.
      assert (set_inv Ev (Z.of_nat (length tr)) st) as [[Hnum _ _] HE _ _]; [|lia].
      apply (Hsets (Z.of_nat i)). apply get_Some. rewrite Nat2Z.id. split; [lia|done]. }
    by rewrite Hl in Hbound.
Qed.

Lemma lines_in_use_is_misses_less_evictions_witness :
  ∃ r c,
    simulate 1 2 0 [L 0; L 1; L 2; L 4; L 6; L 0] = Some (r, c) ∧
    lines_in_use c = misses r - evictions r ∧
    0 <= lines_in_use c <= 2 * 2 ^ 1.
Proof.
  apply (lines_in_use_is_misses_less_evictions 1 2 0 [L 0; L 1; L 2; L 4; L 6; L 0]).
  - split; unfold INT_MAX; lia.
  - simpl. unfold LONG_MAX. lia.
Defined.

(** X12: [hits], [misses], [evictions] and [opCounter] do not decrease
    along a trace. *)
Theorem counters_never_decrease sb Ev b tr tr' :
  valid_config sb Ev b → Z.of_nat (length (tr ++ tr')) <= LONG_MAX →
  ∃ r c r' c',
    simulate sb Ev b tr = Some (r, c) ∧
    simulate sb Ev b (tr ++ tr') = Some (r', c') ∧
    hits r <= hits r' ∧ misses r <= misses r' ∧ evictions r <= evictions r' ∧
    opCounter c <= opCounter c'.
Proof.
  intros Hvc. induction tr' as [|rc tr' IH] using rev_ind; intros Hlen.
  - rewrite app_nil_r in *. pose proof Hvc as [Hs HEv Hb Hbs].
    destruct (simulate_defined sb Ev b tr) as (r & c & Hsim); try done.
    exists r, c, r, c. repeat split; try done; lia.
  - rewrite app_assoc in *. rewrite length_app in Hlen. simpl in Hlen.
    destruct IH as (r & c & r1 & c1 & Hsim & Hsim1 & Hh & Hm & He & Ho); [lia|].
    destruct (reach_step sb Ev b (tr ++ tr') rc Hvc)
      as (r1' & c1' & r2 & c2 & k & tg & stk & st2 & Hsim1' & HI & Hstep & Hdec & Hk
          & Hc & -> & HI'); [lia|].
    rewrite Hsim1 in Hsim1'. simplify_eq.
    exists r, c, r2, (after_access c1' k st2).
    split; [done|]. split; [by rewrite simulate_snoc, Hsim1|].
    rewrite (inv_opc _ _ _ _ _ _ HI) in Hc.
    destruct (access_case_counters _ _ _ _ _ _ _ _ _ _ _ HI ltac:(lia) Hc)
      as [H|[H|H]]; simpl; lia.
Qed.

Lemma counters_never_decrease_witness :
  ∃ r c r' c',
    simulate 0 1 0 [St 0] = Some (r, c) ∧
    simulate 0 1 0 ([St 0] ++ [L 0; L 16]) = Some (r', c') ∧
    hits r <= hits r' ∧ misses r <= misses r' ∧ evictions r <= evictions r' ∧
    opCounter c <= opCounter c'.
Proof.
  apply (counters_never_decrease 0 1 0 [St 0] [L 0; L 16]).
  - split; unfold INT_MAX; lia.
  - simpl. unfold LONG_MAX. lia.
Defined.

(** X13: a trace without a store leaves no dirty line and no dirty byte:
    [dirty_bytes] and [dirty_evictions] are 0 and every line in use has
    the dirty bit 0. *)
Theorem loads_leave_nothing_dirty sb Ev b tr :
  valid_config sb Ev b → Z.of_nat (length tr) <= LONG_MAX →
  Forall (λ rc, op rc ≠ "S"%char) tr →
  ∃ r c,
    simulate sb Ev b tr = Some (r, c) ∧
    dirty_bytes r = 0 ∧ dirty_evictions r = 0 ∧
    ∀ k st j l, get (sets c) k = Some st → 0 <= j < num st →
      get (lines st) j = Some l → dirtyBit l = 0.
Proof.
  intros [Hs HEv Hb Hbs] Hlen Hloads.
  destruct (simulate_defined sb Ev b tr) as (r & c & Hsim); try done.
  exists r, c. split; [done|]. revert tr r c Hsim Hloads Hlen.
  apply (simulate_ind sb Ev b
           (λ tr r c, Forall (λ rc, op rc ≠ "S"%char) tr →
              Z.of_nat (length tr) <= LONG_MAX →
              dirty_bytes r = 0 ∧ dirty_evictions r = 0 ∧
              ∀ k st j l, get (sets c) k = Some st → 0 <= j < num st →
                get (lines st) j = Some l → dirtyBit l = 0)); try lia.
  - intros _ _. split; [done|]. split; [done|].
    intros k st j l [_ Hk]%get_Some Hj. apply lookup_replicate in Hk as [-> _].
    simpl in Hj. lia.
  - intros tr r c rc r' k tg st st' HI HP Hdec Hk Hc Hn HI' Hloads _.
    apply Forall_app in Hloads as [Hloads Hrc]. apply Forall_inv in Hrc.
    destruct (HP Hloads ltac:(lia)) as (Hdb & Hde & Hclean).
    assert (dirty_of rc = 0) as Hd.
    { unfold dirty_of. by apply Ascii.eqb_neq in Hrc as ->. }
    rewrite Hd in Hc.
    destruct (inv_sets _ _ _ _ _ _ HI k st Hk) as [[Hnum Hcap Hlen'] _ _ _].
    assert (∀ i x n', dirtyBit x = 0 →
              0 <= i < capacity st →
              (∀ j, 0 <= j < n' → j ≠ i → j < num st) →
              ∀ k' st1 j l,
                get (sets (after_access c k (mkSet n' (capacity st) (put (lines st) i x))))
                  k' = Some st1 →
                0 <= j < num st1 → get (lines st1) j = Some l → dirtyBit l = 0) as Hput.
    { intros i x n' Hx Hi Hidx k' st1 j l Hk' Hj Hl. simpl in Hk'.
      destruct (decide (k' = k)) as [->|Hne].
      - rewrite get_put_eq in Hk' by (by eapply get_Some_lt). simplify_eq.
        simpl in Hj, Hl. destruct (decide (j = i)) as [->|Hji].
        + rewrite get_put_eq in Hl by lia. by simplify_eq.
        + rewrite get_put_ne in Hl by lia.
          apply (Hclean k st j l); try done. specialize (Hidx j). lia.
      - rewrite get_put_ne in Hk' by (apply get_Some in Hk; lia).
        by apply (Hclean k' st1 j l). }
    inversion Hc as [i l Hi Hl Ht Heq|Habs Hfree Heq|v victim Habs Hfull Hv Hfl Hvic Heq];
      subst r' st'.
    + assert (dirtyBit l = 0) as Hl0 by (by apply (Hclean k st i l)).
      unfold hit_results, hit_line.
      rewrite !bool_decide_eq_false_2 by lia. simpl.
      split; [done|]. split; [done|].
      apply Hput; try done; lia.
    + unfold new_dirty. rewrite bool_decide_eq_false_2 by lia. simpl.
      split; [done|]. split; [done|].
      apply Hput; try done; lia.
    + pose proof Hfl as [Hvr _].
      assert (dirtyBit victim = 0) as Hv0 by (by apply (Hclean k st v victim)).
      unfold new_dirty, evict_dirty.
      rewrite !bool_decide_eq_false_2 by lia. simpl.
      split; [done|]. split; [done|].
      apply Hput; try done; lia.
Qed.

Lemma loads_leave_nothing_dirty_witness :
  ∃ r c,
    simulate 0 1 0 [L 0; mkRecord "M" 16 4; L 0] = Some (r, c) ∧
    dirty_bytes r = 0 ∧ dirty_evictions r = 0 ∧
    ∀ k st j l, get (sets c) k = Some st → 0 <= j < num st →
      get (lines st) j = Some l → dirtyBit l = 0.
Proof.
  apply (loads_leave_nothing_dirty 0 1 0 [L 0; mkRecord "M" 16 4; L 0]).
  - split; unfold INT_MAX; lia.
  - simpl. unfold LONG_MAX. lia.
  - repeat (apply Forall_cons_2; [simpl; discriminate|]). apply Forall_nil_2.
Defined.

(** ** Accesses one after the other *)

(** After an access, the cache holds the block of the access. *)
Lemma access_case_holds r c k st d t b r' st' :
  get (sets c) k = Some st → wf_set st →
  access_case r (opCounter c) st d t b (Some (r', st')) →
  holds (after_access c k st') k t.
Proof.
  intros Hk Hwf Hc. pose proof Hwf as [_ _ Hlen].
  destruct (access_case_slot _ _ _ _ _ _ _ _ Hwf Hc)
    as (i & x & Hi & Hi' & Hst' & Hnum & Htag & _ & _).
  exists st', i, x. split.
  { simpl. apply get_put_eq. by eapply get_Some_lt. }
  split; [lia|]. split; [|done].
  rewrite Hst'. simpl. apply get_put_eq. lia.
Qed.

(** A load in a block that the cache holds is a hit that changes [hits]
    only. *)
Lemma load_of_held_block sb Ev b n r c k tg a :
  Inv sb Ev b n r c → 0 <= b <= 62 → n < LONG_MAX →
  decompose sb b a = Some (k, tg) → holds c k (to_long tg) →
  ∃ r' c',
    step sb b (r, c) (L a) = Some (r', c') ∧
    hits r' = hits r + 1 ∧ misses r' = misses r ∧ evictions r' = evictions r ∧
    dirty_bytes r' = dirty_bytes r ∧ dirty_evictions r' = dirty_evictions r ∧
    lines_in_use c' = lines_in_use c.
Proof.
  intros HI Hb Hn Hdec (st & i & l & Hk & Hi & Hl & Ht).
  pose proof HI as [_ _ _ Hopc Hn0 Hsets Hh Hm Hhm _ _].
  destruct (Hsets k st Hk) as [Hwf _ Huniq _].
  rewrite step_addToSet. simpl. rewrite Hdec. simpl.
  eexists _, _. split.
  { eapply addToSet_of_set; [done| |].
    - unfold LONG_MIN, LONG_MAX in *. lia.
    - by apply (addToSet_set_hit _ _ _ _ _ _ i l). }
  unfold hit_results, dirty_of, L. simpl.
  rewrite bool_decide_eq_false_2 by lia. simpl.
  rewrite to_ulong_small by (unfold LONG_MAX, ULONG_MOD in *; lia).
  do 5 (split; [done|]).
  rewrite (lines_in_use_after _ _ st) by done. simpl. lia.
Qed.

(** X14: an access followed by a load in the same block: the load is a
    hit; it increments [hits] by one and leaves the other counters and the
    number of lines in use as they are. *)
Theorem load_after_access_hits sb Ev b tr rc a :
  valid_config sb Ev b → Z.of_nat (length tr) + 1 < LONG_MAX →
  Z.shiftr a b = Z.shiftr (addr rc) b →
  ∃ r c r' c',
    simulate sb Ev b (tr ++ [rc]) = Some (r, c) ∧
    simulate sb Ev b (tr ++ [rc; L a]) = Some (r', c') ∧
    hits r' = hits r + 1 ∧ misses r' = misses r ∧ evictions r' = evictions r ∧
    dirty_bytes r' = dirty_bytes r ∧ dirty_evictions r' = dirty_evictions r ∧
    lines_in_use c' = lines_in_use c.
Proof.
  intros Hvc Hlen Hblk. pose proof Hvc as [Hs HEv Hb Hbs].
  destruct (reach_step sb Ev b tr rc Hvc)
    as (r0 & c0 & r & c & k & tg & st & st' & Hsim & HI & Hstep & Hdec & Hk & Hc & -> & HI');
    [lia|].
  destruct (inv_sets _ _ _ _ _ _ HI k st Hk) as [Hwf _ _ _].
  assert (decompose sb b a = Some (k, tg)) as Hdec'.
  { rewrite <- Hdec. apply decompose_same_block; try done; lia. }
  destruct (load_of_held_block sb Ev b _ r (after_access c0 k st') k tg a HI' Hb)
    as (r' & c' & Hstep' & Hres); [lia|done| |].
  { by apply (access_case_holds r0 c0 k st (dirty_of rc) _ b r). }
  exists r, (after_access c0 k st'), r', c'.
  assert (simulate sb Ev b (tr ++ [rc]) = Some (r, after_access c0 k st')) as Hsim1.
  { by rewrite simulate_snoc, Hsim. }
  split; [done|]. split; [|done].
  replace (tr ++ [rc; L a]) with ((tr ++ [rc]) ++ [L a]) by (by rewrite <- app_assoc).
  by rewrite simulate_snoc, Hsim1.
Qed.

Lemma load_after_access_hits_witness :
  ∃ r c r' c',
    simulate 1 1 4 ([St 0] ++ [St 100]) = Some (r, c) ∧
    simulate 1 1 4 ([St 0] ++ [St 100; L 111]) = Some (r', c') ∧
    hits r' = hits r + 1 ∧ misses r' = misses r ∧ evictions r' = evictions r ∧
    dirty_bytes r' = dirty_bytes r ∧ dirty_evictions r' = dirty_evictions r ∧
    lines_in_use c' = lines_in_use c.
Proof.
  apply (load_after_access_hits 1 1 4 [St 0] (St 100) 111).
  - split; unfold INT_MAX; lia.
  - simpl. unfold LONG_MAX. lia.
  - reflexivity.
Defined.

(** X15: with at least two lines per set, the block of an access is still
    in the cache after the next access, whatever that one is: the line used
    last is not the victim. *)
Theorem last_used_survives_next_access sb Ev b tr rc1 rc2 :
  valid_config sb Ev b → 2 <= Ev → Z.of_nat (length tr) + 1 < LONG_MAX →
  ∃ r c k tg,
    simulate sb Ev b (tr ++ [rc1; rc2]) = Some (r, c) ∧
    decompose sb b (addr rc1) = Some (k, tg) ∧
    holds c k (to_long tg).
Proof.
  intros Hvc HE2 Hlen. pose proof Hvc as [Hs HEv Hb Hbs].
  destruct (reach_step sb Ev b tr rc1 Hvc)
    as (r0 & c0 & r1 & c1 & k & tg & st & st1 & Hsim & HI & Hstep & Hdec & Hk & Hc & ->
        & HI'); [lia|].
  assert (simulate sb Ev b (tr ++ [rc1]) = Some (r1, after_access c0 k st1)) as Hsim1.
  { by rewrite simulate_snoc, Hsim. }
  destruct (reach_step sb Ev b (tr ++ [rc1]) rc2 Hvc)
    as (r1' & c1' & r2 & c2 & k2 & tg2 & st_k2 & st2 & Hsim1' & _ & Hstep2 & Hdec2 & Hk2
        & Hc2 & -> & _).
  { rewrite length_app. simpl. lia. }
  rewrite Hsim1 in Hsim1'. simplify_eq.
  exists r2, (after_access (after_access c0 k st1) k2 st2), k, tg.
  split.
  { replace (tr ++ [rc1; rc2]) with ((tr ++ [rc1]) ++ [rc2]) by (by rewrite <- app_assoc).
    by rewrite simulate_snoc, Hsim1. }
  split; [done|].
  destruct (inv_sets _ _ _ _ _ _ HI k st Hk) as [Hwf HcapE _ Hstamps].
  pose proof Hwf as [Hnum Hcap Hlen'].
  rewrite (inv_opc _ _ _ _ _ _ HI) in Hc.
  destruct (access_case_slot _ _ _ _ _ _ _ _ Hwf Hc)
    as (i & x & Hi & Hi' & Hst1 & Hnum1 & Htag & Hlru & Hidx).
  assert (get (sets (after_access c0 k st1)) k = Some st1) as Hk1.
  { simpl. apply get_put_eq. by eapply get_Some_lt. }
  assert (get (lines st1) i = Some x) as Hix.
  { rewrite Hst1. simpl. apply get_put_eq. lia. }
  assert (Z.of_nat (length (lines st1)) = capacity st) as Hlen1.
  { rewrite Hst1. simpl. by rewrite length_put. }
  destruct (decide (k2 = k)) as [->|Hne].
  2: { exists st1, i, x. split; [|split; [lia|done]]. simpl.
       rewrite get_put_ne; [done| |done]. apply get_Some in Hk2. lia. }
  rewrite Hk1 in Hk2. simplify_eq.
  assert (∀ n' j y, j ≠ i → i < n' → 0 <= j →
            holds (after_access (after_access c0 k st_k2) k
                     (mkSet n' (capacity st_k2) (put (lines st_k2) j y))) k (to_long tg))
    as Hother.
  { intros n' j y Hji Hin Hj. eexists _, i, x. split.
    { simpl. apply get_put_eq. rewrite length_put. by eapply get_Some_lt. }
    simpl. split; [lia|]. split; [|done]. by rewrite get_put_ne by lia. }
  inversion Hc2 as [i2 l2 Hi2 Hl2 Ht2 Heq|Habs Hfree Heq|v victim Habs Hfull Hv Hfl Hvic Heq];
    subst r2 st2.
  - destruct (decide (i2 = i)) as [->|Hi2i]; [|apply Hother; lia].
    assert (l2 = x) as -> by congruence.
    eexists _, i, (hit_line _ _ x). split.
    { simpl. apply get_put_eq. rewrite length_put. by eapply get_Some_lt. }
    simpl. split; [lia|]. split; [|done]. apply get_put_eq. lia.
  - apply Hother; lia.
  - destruct Hfl as (Hvr & lv & Hlv & Hmin & _).
    apply Hother; [|lia|lia]. intros ->.
    assert (lv = x) as -> by congruence.
    assert (capacity st_k2 = capacity st) as Hcap2 by (by rewrite Hst1).
    set (j := if decide (i = 0) then 1 else 0).
    assert (0 <= j < num st_k2 ∧ j ≠ i) as [Hj Hji].
    { unfold j. destruct (decide (i = 0)); lia. }
    destruct (get_lt (lines st) j) as [lj Hlj]; [specialize (Hidx j); lia|].
    assert (get (lines st_k2) j = Some lj) as Hlj1.
    { rewrite Hst1. simpl. by rewrite get_put_ne by lia. }
    assert (0 <= lruCounter lj < Z.of_nat (length tr)) as Hold.
    { apply (Hstamps j); [|done]. specialize (Hidx j). lia. }
    specialize (Hmin j lj Hj Hlj1). lia.
Qed.

Lemma last_used_survives_next_access_witness :
  ∃ r c k tg,
    simulate 0 2 0 ([L 10; L 11] ++ [L 10; L 12]) = Some (r, c) ∧
    decompose 0 0 (addr (L 10)) = Some (k, tg) ∧
    holds c k (to_long tg).
Proof.
  apply (last_used_survives_next_access 0 2 0 [L 10; L 11] (L 10) (L 12)).
  - split; unfold INT_MAX; lia.
  - lia.
  - simpl. unfold LONG_MAX. lia.
Defined.

(** ** The shape of the cache and the end of main *)

Lemma loop_from_unit k : ∀ i (body : Z → unit → option unit),
  (∀ j, i <= j < i + Z.of_nat k → body j () = Some ()) →
  loop_from k i body () = Some ().
Proof.
  induction k as [|k IH]; intros i body Hbody; [done|].
  cbn [loop_from]. rewrite Hbody by lia. cbn [mbind option_bind].
  apply IH. intros j Hj. apply Hbody. lia.
Qed.

(** X16: after every trace the cache has the shape that [createCache]
    gave it: [2^s] sets, each of capacity [E] with an array of [E] lines;
    the loops at the end of [main], which run over [cache->s] sets and
    [capacity] lines, read inside the arrays. *)
Theorem shape_kept_and_freed_in_bounds sb Ev b tr :
  valid_config sb Ev b → Z.of_nat (length tr) <= LONG_MAX →
  ∃ r c,
    simulate sb Ev b tr = Some (r, c) ∧
    s c = 2 ^ sb ∧ E c = Ev ∧
    Z.of_nat (length (sets c)) = 2 ^ sb ∧
    (∀ k st, get (sets c) k = Some st →
       capacity st = Ev ∧ Z.of_nat (length (lines st)) = Ev) ∧
    free_cache c = Some ().
Proof.
  intros [Hs HEv Hb Hbs] Hlen.
  destruct (simulate_defined sb Ev b tr) as (r & c & Hsim); try done.
  exists r, c. split; [done|].
  pose proof (simulate_Inv _ _ _ _ _ _ (proj1 HEv) Hb Hsim) as HI.
  pose proof HI as [Hsc HE Hl _ _ Hsets _ _ _ _ _].
  do 3 (split; [done|]).
  assert (∀ k st, get (sets c) k = Some st →
            capacity st = Ev ∧ Z.of_nat (length (lines st)) = Ev) as Hshape.
  { intros k st Hk. destruct (Hsets k st Hk) as [[_ _ Hlen'] Hcap _ _]. split; [done|lia]. }
  split; [done|].
  assert (2 ^ sb <= 2 ^ 30) by (apply Z.pow_le_mono_r; lia).
  unfold free_cache, for_int. rewrite Hsc.
  rewrite bool_decide_eq_true_2 by (unfold INT_MAX; lia).
  apply loop_from_unit. intros i Hi.
  destruct (get_lt (sets c) i) as [st Hst]; [lia|].
  rewrite Hst. cbn [mbind option_bind].
  destruct (Hshape i st Hst) as [Hcap Hlen'].
  rewrite bool_decide_eq_true_2 by lia.
  apply loop_from_unit. intros j Hj.
  destruct (get_lt (lines st) j) as [l Hl']; [lia|].
  by rewrite Hl'.
Qed.

Lemma shape_kept_and_freed_in_bounds_witness :
  ∃ r c,
    simulate 1 2 0 [L 0; St 1; L 2; L 4] = Some (r, c) ∧
    s c = 2 ^ 1 ∧ E c = 2 ∧
    Z.of_nat (length (sets c)) = 2 ^ 1 ∧
    (∀ k st, get (sets c) k = Some st →
       capacity st = 2 ∧ Z.of_nat (length (lines st)) = 2) ∧
    free_cache c = Some ().
Proof.
  apply (shape_kept_and_freed_in_bounds 1 2 0 [L 0; St 1; L 2; L 4]).
  - split; unfold INT_MAX; lia.
  - simpl. unfold LONG_MAX. lia.
Defined.

(** ** Evictions and dirty lines along a trace *)

Lemma sumZ_ge_elem {A} (f : A → Z) l i x :
  Forall (λ y, 0 <= f y) l → l !! i = Some x → f x <= sumZ f l.
Proof.
  intros Hpos. revert i. induction Hpos as [|y l Hy Hl IH]; intros [|i] Hi;
    simplify_eq/=.
  - assert (0 <= sumZ f l); [|lia]. clear IH. induction Hl; simpl; lia.
  - specialize (IH i Hi). lia.
Qed.

(** X17: the first [E] misses of a run evict nothing, and after them
    [evictions] is at most [misses - E]: a set is full before it evicts. *)
Theorem evictions_after_first_misses sb Ev b tr :
  valid_config sb Ev b → Z.of_nat (length tr) <= LONG_MAX →
  ∃ r c,
    simulate sb Ev b tr = Some (r, c) ∧
    evictions r <= Z.max 0 (misses r - Ev).
Proof.
  intros [Hs HEv Hb Hbs] Hlen.
  destruct (simulate_defined sb Ev b tr) as (r & c & Hsim); try done.
  exists r, c. split; [done|].
  assert (lines_in_use c = misses r - evictions r ∧
          (evictions r = 0 ∨ Ev <= lines_in_use c)) as [Huse Hfull].
  { revert tr r c Hsim Hlen.
    apply (simulate_ind sb Ev b
             (λ tr r c, Z.of_nat (length tr) <= LONG_MAX →
                lines_in_use c = misses r - evictions r ∧
                (evictions r = 0 ∨ Ev <= lines_in_use c))); try lia.
    - intros _. split; [|by left]. unfold lines_in_use. simpl.
      assert (0 <= sumZ num (replicate (Z.to_nat (2 ^ sb)) (set0 Ev))
              <= 0 * Z.of_nat (length (replicate (Z.to_nat (2 ^ sb)) (set0 Ev)))) as Hz.
      { apply sumZ_bound. apply Forall_lookup. intros i st Hst.
        apply lookup_replicate in Hst as [-> _]. done. }
      lia.
    - intros tr r c rc r' k tg st st' HI HP Hdec Hk Hc Hn HI' _.
      destruct HP as [Huse Hfull]; [lia|].
      rewrite (lines_in_use_after _ _ st) by done.
      assert (num st <= lines_in_use c) as Hle.
      { pose proof Hk as [_ Hk']%get_Some.
        apply (sumZ_ge_elem num (sets c) (Z.to_nat k) st); [|done].
        apply Forall_lookup. intros i sti Hi.
        assert (set_inv Ev (Z.of_nat (length tr)) sti) as [[Hnum _ _] _ _ _]; [|lia].
        apply (inv_sets _ _ _ _ _ _ HI (Z.of_nat i)). apply get_Some.
        rewrite Nat2Z.id. split; [lia|done]. }
      destruct (inv_sets _ _ _ _ _ _ HI k st Hk) as [_ Hcap _ _].
      pose proof (inv_evictions _ _ _ _ _ _ HI) as He.
      destruct (access_case_counters _ _ _ _ _ _ _ _ _ _ _ HI Hn Hc)
        as [H|[H|H]]; lia. }
  lia.
Qed.

Lemma evictions_after_first_misses_witness :
  ∃ r c,
    simulate 0 2 0 [L 10; L 11; L 10; L 12] = Some (r, c) ∧
    evictions r <= Z.max 0 (misses r - 2).
Proof.
  apply (evictions_after_first_misses 0 2 0 [L 10; L 11; L 10; L 12]).
  - split; unfold INT_MAX; lia.
  - simpl. unfold LONG_MAX. lia.
Defined.

Lemma tag_in_use_true t st i l :
  0 <= i < num st → get (lines st) i = Some l → tagBit l = t →
  tag_in_use t st = true.
Proof.
  intros Hi [_ Hl]%get_Some Ht. unfold tag_in_use, resident.
  apply existsb_exists. exists l. split.
  - apply list_elem_of_In, elem_of_take. exists (Z.to_nat i). split; [done|lia].
  - by apply bool_decide_eq_true_2.
Qed.

Lemma tag_in_use_false t st :
  absent t (num st) (lines st) → tag_in_use t st = false.
Proof.
  intros Habs. apply not_true_iff_false. unfold tag_in_use, resident.
  intros (l & Hin & Hl)%existsb_exists.
  apply list_elem_of_In, elem_of_take in Hin as (i & Hi & Hlt).
  apply bool_decide_eq_true_1 in Hl.
  apply (Habs (Z.of_nat i) l); [lia| |done].
  apply get_Some. rewrite Nat2Z.id. split; [lia|done].
Qed.

(** [dirty_evictions] and [evictions] after an access, by [evicts_dirty]. *)
Lemma evicts_dirty_access sb b r c rc k tg st r' st' :
  decompose sb b (addr rc) = Some (k, tg) →
  get (sets c) k = Some st → wf_set st →
  access_case r (opCounter c) st (dirty_of rc) (to_long tg) b (Some (r', st')) →
  dirty_evictions r'
  = (if evicts_dirty sb b c rc
     then to_ulong (dirty_evictions r + 2 ^ b) else dirty_evictions r) ∧
  (evictions r' = evictions r ∧ evicts_dirty sb b c rc = false
   ∨ evictions r' = to_ulong (evictions r + 1)).
Proof.
  intros Hdec Hk [Hnum Hcap Hlen] Hc. unfold evicts_dirty. rewrite Hdec, Hk.
  inversion Hc as [i l Hi Hl Ht Heq|Habs Hfree Heq|v victim Habs Hfull Hv Hfl Hvic Heq];
    subst r' st'.
  - rewrite (tag_in_use_true _ _ i l) by done. rewrite andb_false_r.
    unfold hit_results. case_bool_decide; simpl; (split; [done|by left]).
  - rewrite (bool_decide_eq_false_2 (num st = capacity st)) by lia. simpl.
    unfold new_dirty. case_bool_decide; simpl; (split; [done|by left]).
  - rewrite (bool_decide_eq_true_2 (num st = capacity st)) by done.
    unfold setEmpty. rewrite (bool_decide_eq_false_2 (num st = 0)) by lia.
    rewrite tag_in_use_false by done. simpl. rewrite Hv, Hvic.
    unfold new_dirty, evict_dirty.
    repeat case_bool_decide; simpl; (split; [done|by right]).
Qed.

Lemma dirty_victims_app sb b tr1 : ∀ st tr2,
  dirty_victims sb b st (tr1 ++ tr2)
  = dirty_victims sb b st tr1
    + match run_trace sb b st tr1 with
      | Some st' => dirty_victims sb b st' tr2
      | None => 0
      end.
Proof.
  induction tr1 as [|rc tr1 IH]; intros st tr2; simpl; [done|].
  destruct (step sb b st rc) as [st1|]; simpl; [|lia].
  rewrite IH. lia.
Qed.

Lemma dirty_victims_of_snoc sb Ev b tr rc r c :
  simulate sb Ev b tr = Some (r, c) →
  dirty_victims_of sb Ev b (tr ++ [rc])
  = dirty_victims_of sb Ev b tr + (if evicts_dirty sb b c rc then 1 else 0).
Proof.
  unfold simulate, dirty_victims_of.
  destruct (createCache sb Ev) as [c0|]; [|done]. simpl. intros Hrun.
  rewrite dirty_victims_app, Hrun. simpl.
  destruct (step sb b (r, c) rc); lia.
Qed.

Lemma dirty_victims_counted sb Ev b tr r c :
  0 < Ev → 0 <= b <= 62 →
  simulate sb Ev b tr = Some (r, c) →
  0 <= dirty_victims_of sb Ev b tr <= evictions r ∧
  dirty_evictions r = to_ulong (2 ^ b * dirty_victims_of sb Ev b tr).
Proof.
  intros HEv Hb. revert r c.
  induction tr as [|rc tr IH] using rev_ind; intros r c H.
  - unfold simulate, dirty_victims_of in *.
    destruct (createCache sb Ev) as [c0|]; [|done]. simpl in *. simplify_eq.
    simpl. split; [lia|]. by rewrite Z.mul_0_r.
  - rewrite simulate_snoc in H.
    destruct (simulate sb Ev b tr) as [[r0 c0]|] eqn:Hsim; [|done]. simpl in H.
    destruct (IH r0 c0 eq_refl) as [Hdv Hde].
    pose proof (simulate_Inv _ _ _ _ _ _ HEv Hb Hsim) as HI.
    destruct (Inv_step _ _ _ _ _ _ _ _ _ HI Hb H)
      as (k & tg & st & st' & Hdec & Hk & Hc & -> & Hn & HI').
    rewrite (dirty_victims_of_snoc _ _ _ _ _ r0 c0) by done.
    destruct (inv_sets _ _ _ _ _ _ HI k st Hk) as [Hwf _ _ _].
    rewrite <- (inv_opc _ _ _ _ _ _ HI) in Hc.
    destruct (evicts_dirty_access sb b r0 c0 rc k tg st r st' Hdec Hk Hwf Hc)
      as [Hde' Hev].
    pose proof HI as [_ _ _ _ Hn0 _ Hh Hm Hhm He _]. unfold LONG_MAX in *.
    rewrite (to_ulong_small (evictions r0 + 1)) in Hev by (unfold ULONG_MOD; lia).
    rewrite Hde'. destruct (evicts_dirty sb b c0 rc).
    + split; [destruct Hev as [[_ ?]|?]; [done|lia]|].
      rewrite Hde, to_ulong_add_l. f_equal. lia.
    + split; [destruct Hev as [[? _]|?]; lia|].
      rewrite Hde. f_equal. lia.
Qed.

(** X18: [dirty_evictions] is the block size times the number of the
    accesses of the trace that evicted a dirty line, modulo [2^64], and
    that product itself while [2^b * evictions] is below [2^64]; that
    number is at most [evictions]. *)
Theorem dirty_evictions_counts_blocks sb Ev b tr :
  valid_config sb Ev b → Z.of_nat (length tr) <= LONG_MAX →
  ∃ r c,
    simulate sb Ev b tr = Some (r, c) ∧
    0 <= dirty_victims_of sb Ev b tr <= evictions r ∧
    dirty_evictions r = to_ulong (2 ^ b * dirty_victims_of sb Ev b tr) ∧
    (2 ^ b * evictions r < ULONG_MOD →
     dirty_evictions r = 2 ^ b * dirty_victims_of sb Ev b tr).
Proof.
  intros [Hs HEv Hb Hbs] Hlen.
  destruct (simulate_defined sb Ev b tr) as (r & c & Hsim); try done.
  destruct (dirty_victims_counted sb Ev b tr r c (proj1 HEv) Hb Hsim) as [Hdv Hde].
  exists r, c. split; [done|]. split; [done|]. split; [done|].
  intros Hsmall. rewrite Hde. apply to_ulong_small.
  assert (0 < 2 ^ b) by (apply Z.pow_pos_nonneg; lia). nia.
Qed.

Lemma dirty_evictions_counts_blocks_witness :
  ∃ r c,
    simulate 0 1 3 [St 0; L 16; St 32; St 64] = Some (r, c) ∧
    0 <= dirty_victims_of 0 1 3 [St 0; L 16; St 32; St 64] <= evictions r ∧
    dirty_evictions r
    = to_ulong (2 ^ 3 * dirty_victims_of 0 1 3 [St 0; L 16; St 32; St 64]) ∧
    (2 ^ 3 * evictions r < ULONG_MOD →
     dirty_evictions r = 2 ^ 3 * dirty_victims_of 0 1 3 [St 0; L 16; St 32; St 64]).
Proof.
  apply (dirty_evictions_counts_blocks 0 1 3 [St 0; L 16; St 32; St 64]).
  - split; unfold INT_MAX; lia.
  - simpl. unfold LONG_MAX. lia.
Defined.

(** Of the three evictions of this trace, two find a dirty line. *)
Example dirty_victims_of_example :
  dirty_victims_of 0 1 3 [St 0; L 16; St 32; St 64] = 2 ∧
  simulate 0 1 3 [St 0; L 16; St 32; St 64]
  = Some (mkStats 0 4 3 8 16, mkCache 1 1 4 [mkSet 1 1 [newLine 1 8 3]]).
Proof. split; reflexivity. Qed.

Lemma dirty_of_flag rc : dirty_of rc = 0 ∨ dirty_of rc = 1.
Proof. unfold dirty_of. destruct (Ascii.eqb (op rc) "S"); [by right|by left]. Qed.

Lemma dirty_bits_kept sb Ev b tr r c :
  0 < Ev → 0 <= b <= 62 →
  simulate sb Ev b tr = Some (r, c) →
  ∀ k st j l, get (sets c) k = Some st → 0 <= j < num st →
    get (lines st) j = Some l → dirtyBit l = 0 ∨ dirtyBit l = 1.
Proof.
  intros HEv Hb. revert tr r c.
  apply (simulate_ind sb Ev b
           (λ _ _ c, ∀ k st j l, get (sets c) k = Some st → 0 <= j < num st →
              get (lines st) j = Some l → dirtyBit l = 0 ∨ dirtyBit l = 1)); try done.
  - intros k st j l [_ Hk]%get_Some Hj. apply lookup_replicate in Hk as [-> _].
    simpl in Hj. lia.
  - intros tr r c rc r' k tg st st' HI HP Hdec Hk Hc Hn HI' k' st1 j l Hk' Hj Hl.
    simpl in Hk'.
    destruct (decide (k' = k)) as [->|Hne];
      [|rewrite get_put_ne in Hk' by (apply get_Some in Hk; lia); by apply (HP k' st1 j)].
    rewrite get_put_eq in Hk' by (by eapply get_Some_lt). simplify_eq.
    destruct (inv_sets _ _ _ _ _ _ HI k st Hk) as [[Hnum Hcap Hlen] _ _ _].
    pose proof (dirty_of_flag rc) as Hd.
    inversion Hc as [i l0 Hi Hl0 Ht Heq|Habs Hfree Heq|v victim Habs Hfull Hv Hfl Hvic Heq];
      subst r' st1; simpl in Hj, Hl.
    + destruct (decide (j = i)) as [->|Hji].
      * rewrite get_put_eq in Hl by lia. simplify_eq. unfold hit_line. simpl.
        case_bool_decide; [done|]. by apply (HP k st i l0).
      * rewrite get_put_ne in Hl by lia. by apply (HP k st j l).
    + destruct (decide (j = num st)) as [->|Hji].
      * rewrite get_put_eq in Hl by lia. by simplify_eq.
      * rewrite get_put_ne in Hl by lia. apply (HP k st j l); try done. lia.
    + destruct Hfl as [Hvr _]. destruct (decide (j = v)) as [->|Hji].
      * rewrite get_put_eq in Hl by lia. by simplify_eq.
      * rewrite get_put_ne in Hl by lia. by apply (HP k st j l).
Qed.

(** X19: after every trace, the dirty bit of every line in use is 0 or 1. *)
Theorem dirty_bits_are_flags sb Ev b tr :
  valid_config sb Ev b → Z.of_nat (length tr) <= LONG_MAX →
  ∃ r c,
    simulate sb Ev b tr = Some (r, c) ∧
    ∀ k st j l, get (sets c) k = Some st → 0 <= j < num st →
      get (lines st) j = Some l → dirtyBit l = 0 ∨ dirtyBit l = 1.
Proof.
  intros [Hs HEv Hb Hbs] Hlen.
  destruct (simulate_defined sb Ev b tr) as (r & c & Hsim); try done.
  exists r, c. split; [done|].
  by apply (dirty_bits_kept sb Ev b tr r c (proj1 HEv) Hb).
Qed.

Lemma dirty_bits_are_flags_witness :
  ∃ r c,
    simulate 0 2 0 [St 10; L 11; St 11; L 12] = Some (r, c) ∧
    ∀ k st j l, get (sets c) k = Some st → 0 <= j < num st →
      get (lines st) j = Some l → dirtyBit l = 0 ∨ dirtyBit l = 1.
Proof.
  apply (dirty_bits_are_flags 0 2 0 [St 10; L 11; St 11; L 12]).
  - split; unfold INT_MAX; lia.
  - simpl. unfold LONG_MAX. lia.
Defined.

(** X20: after a store, the line of its block is in use and dirty, whether
    the store was a hit, took a new line or evicted. *)
Theorem store_leaves_line_dirty sb Ev b tr rc :
  valid_config sb Ev b → Z.of_nat (length tr) < LONG_MAX →
  op rc = "S"%char →
  ∃ r c k tg st i l,
    simulate sb Ev b (tr ++ [rc]) = Some (r, c) ∧
    decompose sb b (addr rc) = Some (k, tg) ∧
    get (sets c) k = Some st ∧ 0 <= i < num st ∧
    get (lines st) i = Some l ∧
    tagBit l = to_long tg ∧ dirtyBit l = 1.
Proof.
  intros Hvc Hlen Hop. pose proof Hvc as [Hs HEv Hb Hbs].
  destruct (reach_step sb Ev b tr rc Hvc Hlen)
    as (r0 & c0 & r & c & k & tg & st & st' & Hsim & HI & Hstep & Hdec & Hk & Hc & -> & HI').
  assert (dirty_of rc = 1) as Hd.
  { unfold dirty_of. by rewrite Hop. }
  rewrite Hd in Hc.
  destruct (inv_sets _ _ _ _ _ _ HI k st Hk) as [[Hnum Hcap Hlen'] _ _ _].
  assert (get (sets (after_access c0 k st')) k = Some st') as Hk'.
  { simpl. apply get_put_eq. by eapply get_Some_lt. }
  exists r, (after_access c0 k st'), k, tg, st'.
  inversion Hc as [i l Hi Hl Ht Heq|Habs Hfree Heq|v victim Habs Hfull Hv Hfl Hvic Heq];
    subst r st'.
  - exists i, (hit_line (opCounter c0) 1 l).
    split; [by rewrite simulate_snoc, Hsim|]. do 2 (split; [done|]). simpl.
    split; [done|]. split; [apply get_put_eq; lia|]. split; [done|].
    case_bool_decide as Hcond; [done|].
    destruct (dirty_bits_kept sb Ev b tr r0 c0 (proj1 HEv) Hb Hsim k st i l) as [H0|H1];
      try done. exfalso. apply Hcond. split; [done|lia].
  - exists (num st), (newLine 1 (to_long tg) (opCounter c0)).
    split; [by rewrite simulate_snoc, Hsim|]. do 2 (split; [done|]). simpl.
    split; [lia|]. split; [apply get_put_eq; lia|]. done.
  - destruct Hfl as [Hvr _].
    exists v, (newLine 1 (to_long tg) (opCounter c0)).
    split; [by rewrite simulate_snoc, Hsim|]. do 2 (split; [done|]). simpl.
    split; [done|]. split; [apply get_put_eq; lia|]. done.
Qed.

Lemma store_leaves_line_dirty_witness :
  ∃ r c k tg st i l,
    simulate 0 1 0 ([St 0] ++ [St 16]) = Some (r, c) ∧
    decompose 0 0 (addr (St 16)) = Some (k, tg) ∧
    get (sets c) k = Some st ∧ 0 <= i < num st ∧
    get (lines st) i = Some l ∧
    tagBit l = to_long tg ∧ dirtyBit l = 1.
Proof.
  apply (store_leaves_line_dirty 0 1 0 [St 0] (St 16)).
  - split; unfold INT_MAX; lia.
  - simpl. unfold LONG_MAX. lia.
  - reflexivity.
Defined.

(** ** Hits, and the tag as [addToSet] receives it *)

(** X21: an access is a hit exactly when the cache holds its block: then
    [hits] is incremented by one and [misses] is left; otherwise [misses]
    is incremented by one and [hits] is left. *)
Theorem hit_iff_block_held sb Ev b tr rc :
  valid_config sb Ev b → Z.of_nat (length tr) < LONG_MAX →
  ∃ r c r' c' k tg,
    simulate sb Ev b tr = Some (r, c) ∧
    step sb b (r, c) rc = Some (r', c') ∧
    decompose sb b (addr rc) = Some (k, tg) ∧
    (holds c k (to_long tg) → hits r' = hits r + 1 ∧ misses r' = misses r) ∧
    (¬ holds c k (to_long tg) → hits r' = hits r ∧ misses r' = misses r + 1).
Proof.
  intros Hvc Hlen.
  destruct (reach_step sb Ev b tr rc Hvc Hlen)
    as (r & c & r' & c' & k & tg & st & st' & Hsim & HI & Hstep & Hdec & Hk & Hc & -> & HI').
  exists r, c, r', (after_access c k st'), k, tg.
  do 3 (split; [done|]).
  pose proof HI as [_ _ _ _ Hn0 _ Hh Hm Hhm _ _]. unfold LONG_MAX in *.
  assert (absent (to_long tg) (num st) (lines st) → ¬ holds c k (to_long tg)) as Hnot.
  { intros Habs (st0 & i & l & Hk0 & Hi & Hl & Ht). simplify_eq. by apply (Habs i l). }
  inversion Hc as [i l Hi Hl Ht Heq|Habs Hfree Heq|v victim Habs Hfull Hv Hfl Hvic Heq];
    subst r' st'.
  - split.
    + intros _. unfold hit_results. case_bool_decide; simpl;
        rewrite to_ulong_small; unfold ULONG_MOD; lia.
    + intros Hn. exfalso. apply Hn. by exists st, i, l.
  - split; [intros Hh'; by apply Hnot in Hh'|].
    intros _. unfold new_dirty. case_bool_decide; simpl;
      rewrite to_ulong_small; unfold ULONG_MOD; lia.
  - split; [intros Hh'; by apply Hnot in Hh'|].
    intros _. unfold new_dirty, evict_dirty. repeat case_bool_decide; simpl;
      rewrite to_ulong_small; unfold ULONG_MOD; lia.
Qed.

Lemma hit_iff_block_held_witness :
  ∃ r c r' c' k tg,
    simulate 0 2 0 [L 10; L 11] = Some (r, c) ∧
    step 0 0 (r, c) (St 10) = Some (r', c') ∧
    decompose 0 0 (addr (St 10)) = Some (k, tg) ∧
    (holds c k (to_long tg) → hits r' = hits r + 1 ∧ misses r' = misses r) ∧
    (¬ holds c k (to_long tg) → hits r' = hits r ∧ misses r' = misses r + 1).
Proof.
  apply (hit_iff_block_held 0 2 0 [L 10; L 11] (St 10)).
  - split; unfold INT_MAX; lia.
  - simpl. unfold LONG_MAX. lia.
Defined.

Lemma to_long_inj x y :
  0 <= x < ULONG_MOD → 0 <= y < ULONG_MOD → to_long x = to_long y → x = y.
Proof.
  unfold to_long, ULONG_MOD. intros Hx Hy Heq.
  assert (∀ z, 0 <= z < 18446744073709551616 →
            (z + 9223372036854775808) mod 18446744073709551616
            = if bool_decide (z < 9223372036854775808)
              then z + 9223372036854775808 else z - 9223372036854775808) as Hmod.
  { intros z Hz. case_bool_decide.
    - apply Z.mod_small. lia.
    - symmetry. apply (Z.mod_unique_pos _ _ 1). lia. lia. }
  rewrite !Hmod in Heq by done. repeat case_bool_decide; lia.
Qed.

(** X22: [main] passes the tag, an [unsigned long], as a [long]: the set
    index and the tag as [addToSet] receives them still tell the blocks
    apart.  For two addresses of 64 bits they are the same exactly when
    the addresses are in the same block. *)
Theorem set_and_long_tag_identify_block sb b a1 a2 :
  0 <= b → 0 <= sb → b + sb < 64 →
  0 <= a1 < ULONG_MOD → 0 <= a2 < ULONG_MOD →
  ∃ k1 t1 k2 t2,
    decompose sb b a1 = Some (k1, t1) ∧
    decompose sb b a2 = Some (k2, t2) ∧
    (k1 = k2 ∧ to_long t1 = to_long t2 ↔ Z.shiftr a1 b = Z.shiftr a2 b).
Proof.
  intros Hb Hs Hbs Ha1 Ha2.
  rewrite !decompose_block by done.
  eexists _, _, _, _. split; [done|]. split; [done|].
  assert (0 < 2 ^ sb) as Hpow by (apply Z.pow_pos_nonneg; lia).
  assert (∀ a, 0 <= a < ULONG_MOD → 0 <= Z.shiftr a b / 2 ^ sb < ULONG_MOD) as Hrange.
  { intros a Ha. rewrite Z.shiftr_div_pow2 by done.
    assert (0 < 2 ^ sb) by (apply Z.pow_pos_nonneg; lia).
    assert (0 < 2 ^ b) by (apply Z.pow_pos_nonneg; lia).
    split; [apply Z.div_pos; [apply Z.div_pos|]; lia|].
    apply Z.div_lt_upper_bound; [lia|].
    assert (a / 2 ^ b <= a) by (apply Z.div_le_upper_bound; nia).
    nia. }
  split.
  - intros [Hk Ht].
    apply to_long_inj in Ht; [|by apply Hrange|by apply Hrange].
    by apply (div_mod_inj _ _ (2 ^ sb)).
  - intros ->. done.
Qed.

Lemma set_and_long_tag_identify_block_witness :
  ∃ k1 t1 k2 t2,
    decompose 0 0 18446744073709551615 = Some (k1, t1) ∧
    decompose 0 0 9223372036854775807 = Some (k2, t2) ∧
    (k1 = k2 ∧ to_long t1 = to_long t2
     ↔ Z.shiftr 18446744073709551615 0 = Z.shiftr 9223372036854775807 0).
Proof.
  apply (set_and_long_tag_identify_block 0 0 18446744073709551615 9223372036854775807);
    unfold ULONG_MOD; lia.
Defined.

(** ** The scenarios of the specification *)

(** With two lines, the tags A, B, A, C: the fourth access evicts B. *)
Example lru_evicts_least_recently_used :
  simulate 0 2 0 [L 10; L 11; L 10; L 12]
  = Some (mkStats 1 3 1 0 0,
          mkCache 1 2 4 [mkSet 2 2 [newLine 0 10 2; newLine 0 12 3]]).
Proof. reflexivity. Qed.

(** [s = 1], [E = 1], [b = 0]: the addresses 0 and 1 go to different sets. *)
Example two_sets_no_eviction :
  simulate 1 1 0 [L 0; St 1; L 0]
  = Some (mkStats 1 2 0 1 0,
          mkCache 2 1 3 [mkSet 1 1 [newLine 0 0 2]; mkSet 1 1 [newLine 1 0 1]]).
Proof. reflexivity. Qed.

(** [s = 0], [E = 1], [b = 0]: the load evicts the dirty line. *)
Example dirty_line_evicted :
  simulate 0 1 0 [St 0; L 16]
  = Some (mkStats 0 2 1 0 1, mkCache 1 1 2 [mkSet 1 1 [newLine 0 16 1]]).
Proof. reflexivity. Qed.

(** Of the lines with the smallest counter, [indexLRU] returns the first. *)
Example indexLRU_tie :
  indexLRU (mkSet 3 3 [newLine 0 1 5; newLine 0 2 3; newLine 0 3 3]) = Some 1.
Proof. reflexivity. Qed.
